(** * Shallow embedding of src-tauri/src/services/ffmpeg.rs

    The file covers [merge] (the merge orchestrator), [monitor] (the
    progress log tailer), the [FFmpegLog] record the tailer decodes,
    [get_stream_info] (the stream probe) and [raw_flac] (the audio
    extraction).
    Effects are written out as explicit state passing: the world a run
    observes (file-system answers, process results, channel answers) is
    an input, and each run returns the list of actions it performed
    together with its outcome. *)

From Stdlib Require Import Ascii String List Bool Arith Lia.
From stdpp Require Import base gmap strings list pretty.
Import ListNotations.
Open Scope string_scope.

(* ------------------------------------------------------------------ *)
(** ** Strings as the Rust code handles them *)

(** [char::is_whitespace] restricted to ASCII: tab, LF, VT, FF, CR and
    space. The progress log is modelled as ASCII text. *)
Definition is_ws (c : ascii) : bool :=
  let n := nat_of_ascii c in
  (Nat.leb 9 n && Nat.leb n 13) || Nat.eqb n 32.

Fixpoint trim_start (s : string) : string :=
  match s with
  | EmptyString => EmptyString
  | String c r => if is_ws c then trim_start r else s
  end.

Definition rev_str (s : string) : string :=
  string_of_list_ascii (rev (list_ascii_of_string s)).

(** [str::trim]. *)
Definition trim (s : string) : string :=
  rev_str (trim_start (rev_str (trim_start s))).

(** [str::split_once(sep)]: split at the first occurrence of [sep]. *)
Fixpoint split_once (sep : ascii) (s : string) : option (string * string) :=
  match s with
  | EmptyString => None
  | String c r =>
      if Ascii.eqb c sep then Some (EmptyString, r)
      else match split_once sep r with
           | Some (a, b) => Some (String c a, b)
           | None => None
           end
  end.

(** Successive [BufReader::read_line] calls: each line keeps its
    terminating newline; a trailing fragment without newline is returned
    as a last line; reading stops when a call returns 0 bytes. *)
Fixpoint read_lines_acc (cur : string) (s : string) : list string :=
  match s with
  | EmptyString => match cur with EmptyString => [] | _ => [cur] end
  | String c r =>
      if Ascii.eqb c "010"%char
      then (cur ++ String c EmptyString) :: read_lines_acc EmptyString r
      else read_lines_acc (cur ++ String c EmptyString) r
  end.

Definition read_lines (s : string) : list string := read_lines_acc EmptyString s.

(* ------------------------------------------------------------------ *)
(** ** Number parsing *)

Definition digit_val (c : ascii) : option N :=
  let n := nat_of_ascii c in
  if Nat.leb 48 n && Nat.leb n 57 then Some (N.of_nat (n - 48)) else None.

Fixpoint digits_val (acc : N) (s : string) : option N :=
  match s with
  | EmptyString => Some acc
  | String c r =>
      match digit_val c with
      | Some d => digits_val (acc * 10 + d)%N r
      | None => None
      end
  end.

Definition u64_max : N := (2 ^ 64 - 1)%N.

(** [<u64 as FromStr>::from_str]: an optional ['+'], then at least one
    ASCII digit, and a value that fits in 64 bits. *)
Definition parse_u64 (s : string) : option N :=
  let body := match s with
              | String "+"%char r => r
              | _ => s
              end in
  match body with
  | EmptyString => None
  | _ => match digits_val 0 body with
         | Some n => if N.leb n u64_max then Some n else None
         | None => None
         end
  end.

(* ------------------------------------------------------------------ *)
(** ** JSON values and the rolling field window *)

(** The [serde_json::Value]s the tailer builds: [json!(u64)],
    [json!(f64)] for a finite float (its source text kept, floating
    point itself is not modelled), [Null] (what [json!] makes of a NaN
    or infinite [f64]) and [json!(&str)]. *)
Inductive JVal :=
| JU64 (n : N)
| JF64 (text : string)
| JNull
| JStr (s : string).

(** The rolling window: [keys : Vec<Option<String>>] and
    [map : serde_json::Map<String, Value>]. *)
Record Window := mkWindow {
  w_keys : list (option string);
  w_map : gmap string JVal;
}.

Definition empty_window : Window := mkWindow [] ∅.

Definition field_count : nat := 12.

(** Lines 185-189: once 12 keys are recorded, [keys.remove(0)] and
    [map.remove] of that key. The [[]] case is unreachable since
    [keys.len() >= 12]. *)
Definition evict (keys : list (option string)) (m : gmap string JVal)
    : list (option string) * gmap string JVal :=
  if Nat.leb field_count (length keys) then
    match keys with
    | Some oldest :: rest => (rest, delete oldest m)
    | None :: rest => (rest, m)
    | [] => ([], m)
    end
  else (keys, m).

(** Lines 185-198: evict, then [map.insert] and [keys.push]. *)
Definition window_insert (key : string) (v : JVal) (w : Window) : Window :=
  let '(keys, m) := evict (w_keys w) (w_map w) in
  mkWindow ((keys ++ [Some key])%list) (<[key := v]> m).

Definition feed_pairs (kvs : list (string * JVal)) (w : Window) : Window :=
  fold_left (fun acc kv => window_insert (fst kv) (snd kv) acc) kvs w.

Definition window_has (w : Window) (k : string) : bool :=
  match w_map w !! k with Some _ => true | None => false end.

(** The keys of the last [n] insertions. *)
Definition lastn {A} (n : nat) (l : list A) : list A := skipn (length l - n) l.

(* ------------------------------------------------------------------ *)
(** ** The decoded telemetry record [FFmpegLog] *)

(** An [f64] field, filled from a [u64] number or a finite float. *)
Inductive F64 :=
| F64_of_u64 (n : N)
| F64_lit (text : string).

Record FFmpegLog := mkFFmpegLog {
  frame : N;
  fps : F64;
  stream_0_0_q : F64;
  bitrate : string;
  total_size : N;
  out_time_us : N;
  out_time_ms : N;
  out_time : string;
  dup_frames : N;
  drop_frames : N;
  speed : string;
  progress : string;
}.

(** [serde_json] deserialisation of one field of the derived
    [Deserialize] impl: a missing field or a value of the wrong type is
    an error ([None]). *)
Definition de_u64 (v : option JVal) : option N :=
  match v with Some (JU64 n) => Some n | _ => None end.

Definition de_u32 (v : option JVal) : option N :=
  match v with
  | Some (JU64 n) => if N.leb n (2 ^ 32 - 1) then Some n else None
  | _ => None
  end.

Definition de_f64 (v : option JVal) : option F64 :=
  match v with
  | Some (JU64 n) => Some (F64_of_u64 n)
  | Some (JF64 t) => Some (F64_lit t)
  | _ => None
  end.

Definition de_string (v : option JVal) : option string :=
  match v with Some (JStr s) => Some s | _ => None end.

(** [serde_json::from_value::<FFmpegLog>(Value::Object(map))]; keys that
    are not fields of the record are ignored. *)
Definition decode_log (m : gmap string JVal) : option FFmpegLog :=
  f ← de_u64 (m !! "frame");
  fp ← de_f64 (m !! "fps");
  q ← de_f64 (m !! "stream_0_0_q");
  br ← de_string (m !! "bitrate");
  ts ← de_u64 (m !! "total_size");
  us ← de_u64 (m !! "out_time_us");
  ms ← de_u64 (m !! "out_time_ms");
  ot ← de_string (m !! "out_time");
  du ← de_u32 (m !! "dup_frames");
  dr ← de_u32 (m !! "drop_frames");
  sp ← de_string (m !! "speed");
  pr ← de_string (m !! "progress");
  Some (mkFFmpegLog f fp q br ts us ms ot du dr sp pr).

(* ------------------------------------------------------------------ *)
(** ** Tasks, events and errors (from [super::aria2c] and [anyhow]) *)

(** The variants of [TaskType] this file uses. *)
Inductive TaskType := Video | Audio | Merge.

Definition TaskType_eqb (a b : TaskType) : bool :=
  match a, b with
  | Video, Video | Audio, Audio | Merge, Merge => true
  | _, _ => false
  end.

Record Task := mkTask {
  gid : option string;
  task_type : TaskType;
  path : option string;
}.

Record QueueInfo := mkQueueInfo {
  qi_id : string;
  tasks : list Task;
  output : string;
}.

(** The variants of [DownloadEvent] the tailer sends. *)
Inductive DownloadEvent :=
| Started (id gid : string) (task_type : TaskType)
| Progress (id gid : string) (content_length chunk_length : N)
| Finished (id gid : string).

(** An [anyhow::Error]: a root message wrapped in contexts. *)
Inductive Error :=
| Msg (m : string)
| Ctx (context : string) (inner : Error).

Definition io_error : Error := Msg "io error".
Definition send_error : Error := Msg "channel send error".

(* ------------------------------------------------------------------ *)
(** ** The log tailer [monitor] *)

(** What one iteration of the tail loop observes. *)
Record Obs := mkObs {
  o_meta : option N;         (** [fs::metadata(..).len()]; [None]: error *)
  o_open : bool;             (** [fs::File::open] succeeds *)
  o_seek : bool;             (** [file.seek(..)] succeeds (result ignored) *)
  o_content : string;        (** the file's bytes when the reader runs *)
  o_read_err : option nat;   (** [read_line] fails after this many lines *)
}.

(** The world the tailer runs in. *)
Record MonWorld := mkMonWorld {
  mw_polls : option nat;       (** failed existence checks before the file
                                   appears; [None]: it never appears *)
  mw_iters : list Obs;         (** one entry per tail-loop iteration; when
                                   the list runs out the run is still going *)
  mw_send : nat -> bool;       (** whether the [n]-th [event.send] succeeds *)
}.

Inductive MAct :=
| AExists (found : bool)
| ASleep (ms : nat)
| ASend (e : DownloadEvent) (delivered : bool)
| ARead (from : N) (lines : list string)
| ADecode (ok : bool).

Inductive Outcome := OPending | OOk | OErr (e : Error).

Record MState := mkMState {
  last_size : N;
  window : Window;
  sent : nat;
}.

Record MCtx := mkMCtx {
  mc_id : string;
  mc_gid : string;
  mc_path : string;
  mc_frames : N;
  mc_send : nat -> bool;
}.

Inductive Step := SNext (st : MState) | SStop (out : Outcome).

(** [task.gid.as_ref().unwrap_or(&String::new()).clone()]. *)
Definition gid_or_empty (t : Task) : string :=
  match gid t with Some g => g | None => EmptyString end.

Section WithFloatParser.

(** [<f64 as FromStr>::from_str], abstracted: [None] when the text is not
    a float literal, [Some true] for a finite value, [Some false] for a
    NaN or infinite one. *)
Variable parse_f64 : string -> option bool.

(** Lines 190-196. *)
Definition coerce_value (v : string) : JVal :=
  match parse_u64 v with
  | Some n => JU64 n
  | None =>
      match parse_f64 v with
      | Some true => JF64 v
      | Some false => JNull
      | None => JStr v
      end
  end.

(** Lines 182-199: one line read from the log. *)
Definition process_line (w : Window) (line : string) : Window :=
  match split_once "=" (trim line) with
  | Some (k, v) => window_insert (trim k) (coerce_value (trim v)) w
  | None => w
  end.

(** Lines 178-201: the offset the reader starts at (the failed seek is
    ignored and leaves the fresh file at offset 0) and the lines read. *)
Definition read_start (o : Obs) (last : N) : N :=
  if o_seek o then last else 0%N.

Definition read_from (o : Obs) (last : N) : list string :=
  let start := N.to_nat (read_start o last) in
  let lines := read_lines (substring start (String.length (o_content o) - start)
                                     (o_content o)) in
  match o_read_err o with
  | Some k => firstn k lines
  | None => lines
  end.

(** One iteration of the tail loop, lines 169-224. *)
Definition tail_iter (c : MCtx) (st : MState) (o : Obs) : list MAct * Step :=
  match o_meta o with
  | None =>
      ([], SStop (OErr (Ctx ("Failed to get FFmpeg progress metadata: " ++ mc_path c)
                            io_error)))
  | Some len =>
      if negb (o_open o) then
        ([], SStop (OErr (Ctx ("Failed to open FFmpeg progress: " ++ mc_path c) io_error)))
      else
        let lines := read_from o (last_size st) in
        let win := fold_left process_line lines (window st) in
        let st1 := mkMState len win (sent st) in
        let racts := [ARead (read_start o (last_size st)) lines] in
        if bool_decide (w_map win = ∅) then (racts, SNext st1)
        else
          match decode_log (w_map win) with
          | None =>
              ((racts ++ [ADecode false])%list,
               SStop (OErr (Ctx "Failed to parse FFmpeg Log" (Msg "serde error"))))
          | Some log =>
              let dacts := (racts ++ [ADecode true])%list in
              let st2 := mkMState len win (S (sent st)) in
              if String.eqb (progress log) "continue" then
                let ev := Progress (mc_id c) (mc_gid c) (mc_frames c) (frame log) in
                if mc_send c (sent st)
                then ((dacts ++ [ASend ev true; ASleep 200])%list, SNext st2)
                else ((dacts ++ [ASend ev false])%list, SStop (OErr send_error))
              else if String.eqb (progress log) "end" then
                let ev := Finished (mc_id c) (mc_gid c) in
                if mc_send c (sent st)
                then ((dacts ++ [ASend ev true])%list, SStop OOk)
                else ((dacts ++ [ASend ev false])%list, SStop (OErr send_error))
              else ((dacts ++ [ASleep 200])%list, SNext st1)
          end
  end.

Fixpoint tail_loop (c : MCtx) (st : MState) (obs : list Obs) : list MAct * Outcome :=
  match obs with
  | [] => ([], OPending)
  | o :: rest =>
      let '(acts, s) := tail_iter c st o in
      match s with
      | SNext st' => let '(acts', out) := tail_loop c st' rest in ((acts ++ acts')%list, out)
      | SStop out => (acts, out)
      end
  end.

Definition wait_acts (n : nat) : list MAct :=
  (concat (repeat [AExists false; ASleep 250] n) ++ [AExists true])%list.

(** [monitor], lines 158-226. The job identity is [id], [task] is the
    video task of the queue. *)
Definition monitor (id : string) (task : Task) (progress_path : string) (frames : N)
    (mw : MonWorld) : list MAct * Outcome :=
  match mw_polls mw with
  | None => ([], OPending)
  | Some n =>
      let g := gid_or_empty task in
      let c := mkMCtx id g progress_path frames (mw_send mw) in
      let ev := Started id g Merge in
      if mw_send mw 0 then
        let '(acts, out) := tail_loop c (mkMState 0 empty_window 1) (mw_iters mw) in
        ((wait_acts n ++ [ASend ev true] ++ acts)%list, out)
      else ((wait_acts n ++ [ASend ev false])%list, OErr send_error)
  end.

End WithFloatParser.

(* ------------------------------------------------------------------ *)
(** ** Output container and audio codec (lines 95-105) *)

Fixpoint split_on (sep : ascii) (s : string) : list string :=
  match s with
  | EmptyString => [EmptyString]
  | String c r =>
      if Ascii.eqb c sep then EmptyString :: split_on sep r
      else match split_on sep r with
           | x :: xs => String c x :: xs
           | [] => [String c EmptyString]
           end
  end.

(** [Path::file_name]: the last normal component. *)
Definition file_name (p : string) : option string :=
  let comps := filter (fun x => negb (String.eqb x "") && negb (String.eqb x "."))
                      (split_on "/" p) in
  match last comps with
  | Some f => if String.eqb f ".." then None else Some f
  | None => None
  end.

(** [Path::extension]: the text after the last dot of the file name;
    none when there is no dot or the only dot leads the name. *)
Definition extension (p : string) : option string :=
  match file_name p with
  | None => None
  | Some f =>
      if String.eqb f ".." then None
      else match rev (split_on "." f) with
           | after :: before :: rest =>
               let before_s := String.concat "." (rev (before :: rest)) in
               if String.eqb before_s "" then None else Some after
           | _ => None
           end
  end.

(** [output.extension().and_then(|e| e.to_str()).unwrap_or("")]. *)
Definition ext_or_empty (p : string) : string :=
  match extension p with Some e => e | None => EmptyString end.

(** The [codec] match: strict containers re-encode to ["aac"] unless
    the probed codec is ["aac"] or ["mp3"]. *)
Definition audio_codec (ext probed : string) : string :=
  if String.eqb ext "mp4" || String.eqb ext "flv" then
    if String.eqb probed "aac" || String.eqb probed "mp3" then "copy" else "aac"
  else "copy".

(* ------------------------------------------------------------------ *)
(** ** The merge orchestrator [merge] (lines 66-134) *)

Inductive ExitStatus := Exited (code : Z) | Signaled.

(** [ExitStatus::success]. *)
Definition success (s : ExitStatus) : bool :=
  match s with Exited 0%Z => true | _ => false end.

(** [status.code().unwrap_or(-1)]. *)
Definition exit_code (s : ExitStatus) : Z :=
  match s with Exited c => c | Signaled => (-1)%Z end.

(** What [.output().await] of the merge run gives. *)
Inductive ProcRun := PSpawnErr | PStatus (s : ExitStatus) | PHang.

Record MergeWorld := mkMergeWorld {
  log_dir : option string;        (** [app.path().app_log_dir()] *)
  ts : string;                    (** [get_ts(true)] *)
  mkdir_ok : bool;                (** [fs::create_dir_all] *)
  probe : option (N * string);    (** [get_stream_info]: frames and codec *)
  sidecar_ok : bool;              (** [app.shell().sidecar("ffmpeg")] *)
  proc : ProcRun;                 (** the transcoder run *)
  mon : MonWorld;                 (** the world of the tailer *)
  ffmpeg_done_first : bool;       (** when both tasks finish, the order *)
}.

Inductive GAct :=
| GMkdir (dir : string)
| GProbe (video audio : string)
| GSpawn (args : list string)
| GMon (a : MAct).

Inductive MergeOutcome := MOk | MErr (e : Error) | MPanic (what : string) | MPending.

(** The result of one of the two futures joined by [try_join!]. *)
Inductive TaskRes := TOk | TErr (e : Error) | TPending.

(** [tokio::try_join!(a, b)]: the error of the task that fails first,
    success once both succeed, pending otherwise. *)
Definition try_join (a b : TaskRes) (a_first : bool) : TaskRes :=
  match a, b with
  | TErr ea, TErr eb => TErr (if a_first then ea else eb)
  | TErr ea, _ => TErr ea
  | _, TErr eb => TErr eb
  | TOk, TOk => TOk
  | _, _ => TPending
  end.

(** Everything [merge] has computed when it reaches the join. *)
Record JoinCtx := mkJoinCtx {
  jc_acts : list GAct;
  jc_paths : list (option string);
  jc_video : Task;
  jc_progress_path : string;
  jc_frames : N;
  jc_codec : string;
}.

Definition is_type (ty : TaskType) (t : Task) : bool := TaskType_eqb (task_type t) ty.

(** Lines 67-105: the steps before the join; [inl] is an early exit.
    The progress directory and file are written as [PathBuf::join] and
    [Path::parent] give them on Unix when [app_log_dir] has no trailing
    separator and the id holds no [/]; on Windows the separator is [\]. *)
Definition merge_setup (info : QueueInfo) (w : MergeWorld)
    : (list GAct * MergeOutcome) + JoinCtx :=
  let n := length (tasks info) in
  if Nat.ltb n 2 then
    inl ([], MErr (Msg ("Insufficient number of input paths, " ++ pretty n)))
  else
    let paths := map path (tasks info) in
    match find (is_type Video) (tasks info) with
    | None => inl ([], MPanic "called `Option::unwrap()` on a `None` value")
    | Some vt =>
    match path vt with
    | None => inl ([], MPanic "called `Option::unwrap()` on a `None` value")
    | Some video_path =>
    match find (is_type Audio) (tasks info) with
    | None => inl ([], MPanic "called `Option::unwrap()` on a `None` value")
    | Some at_ =>
    match path at_ with
    | None => inl ([], MPanic "called `Option::unwrap()` on a `None` value")
    | Some audio_path =>
    match log_dir w with
    | None => inl ([], MErr (Msg "app_log_dir error"))
    | Some dir =>
    let pdir := dir ++ "/ffmpeg" in
    let progress_path := pdir ++ "/" ++ qi_id info ++ "_" ++ ts w ++ ".log" in
    if negb (mkdir_ok w) then
      inl ([GMkdir pdir], MErr (Ctx "Failed to create FFmpeg progress Folder" io_error))
    else
    let acts := [GMkdir pdir; GProbe video_path audio_path] in
    match probe w with
    | None => inl (acts, MErr (Ctx "Failed to get stream info" (Msg "probe error")))
    | Some (frames, acodec) =>
        inr (mkJoinCtx acts paths vt progress_path frames
                       (audio_codec (ext_or_empty (output info)) acodec))
    end end end end end end.

(** The [ffmpeg] future, lines 106-125; [None] is the panic of
    [paths[i].clone().unwrap()]. *)
Definition ffmpeg_task (info : QueueInfo) (jc : JoinCtx) (w : MergeWorld)
    : option (list GAct * TaskRes) :=
  if negb (sidecar_ok w) then Some ([], TErr (Msg "sidecar error"))
  else
    match nth 0 (jc_paths jc) None, nth 1 (jc_paths jc) None with
    | Some p0, Some p1 =>
        let args := ["-i"; p0; "-i"; p1; "-c:v"; "copy"; "-c:a"; jc_codec jc;
                     "-shortest"; output info; "-progress"; jc_progress_path jc; "-y"] in
        Some ([GSpawn args],
              match proc w with
              | PSpawnErr => TErr io_error
              | PStatus s =>
                  if success s then TOk
                  else TErr (Msg ("FFmpeg exited with status: " ++ pretty (exit_code s)))
              | PHang => TPending
              end)
    | _, _ => None
    end.

Definition outcome_res (o : Outcome) : TaskRes :=
  match o with OOk => TOk | OErr e => TErr e | OPending => TPending end.

(** The [monitor] future, lines 126-130. *)
Definition monitor_task (parse_f64 : string -> option bool) (info : QueueInfo)
    (jc : JoinCtx) (w : MergeWorld) : list MAct * Outcome :=
  monitor parse_f64 (qi_id info) (jc_video jc) (jc_progress_path jc) (jc_frames jc) (mon w).

(** [merge]: the setup, then the join and [result.context("Failed to merge")]. *)
Definition merge (parse_f64 : string -> option bool) (info : QueueInfo) (w : MergeWorld)
    : list GAct * MergeOutcome :=
  match merge_setup info w with
  | inl early => early
  | inr jc =>
      match ffmpeg_task info jc w with
      | None => (jc_acts jc, MPanic "called `Option::unwrap()` on a `None` value")
      | Some (facts, fres) =>
          let '(macts, mout) := monitor_task parse_f64 info jc w in
          ((jc_acts jc ++ facts ++ map GMon macts)%list,
           match try_join fres (outcome_res mout) (ffmpeg_done_first w) with
           | TOk => MOk
           | TErr e => MErr (Ctx "Failed to merge" e)
           | TPending => MPending
           end)
      end
  end.

(* ------------------------------------------------------------------ *)
(** ** The stream probe [get_stream_info] (lines 35-64) *)

(** The probe's stderr is taken as the bytes ffmpeg wrote. On ASCII
    text, [String::from_utf8_lossy] leaves every byte a character, and
    the Unicode classes [\s] and [\d] of the regex crate and the
    white space of [str::trim] reduce to [is_ws], [is_digit] and [trim];
    on other text they do not (U+00A0 is white space, U+0663 a digit), so
    the properties of the probe are stated for ASCII stderr. *)
Definition is_ascii7 (c : ascii) : bool := Nat.ltb (nat_of_ascii c) 128.

(** Both patterns of [get_stream_info] are sequences of single-character
    classes, each matched exactly once, or greedily any number of times
    ([*]), or greedily at least once ([+]), some inside a capture group. *)
Inductive Quant := QOne | QStar | QPlus.

Record Piece := mkPiece {
  p_class : ascii -> bool;
  p_quant : Quant;
  p_cap : bool;
}.

Fixpoint take_while (f : ascii -> bool) (l : list ascii) : list ascii :=
  match l with
  | [] => []
  | c :: r => if f c then c :: take_while f r else []
  end.

(** The repetition counts a quantifier tries, in order of preference
    (greedy: the longest first), when [n] characters of its class follow. *)
Definition counts (q : Quant) (n : nat) : list nat :=
  match q with
  | QOne => if Nat.eqb n 0 then [] else [1]
  | QStar => rev (seq 0 (S n))
  | QPlus => rev (seq 1 n)
  end.

Fixpoint first_some {A B} (f : A -> option B) (l : list A) : option B :=
  match l with
  | [] => None
  | x :: r => match f x with Some y => Some y | None => first_some f r end
  end.

(** A backtracking match anchored at the start of [s]: the capture
    groups and the length of the match. Trying the counts in order of
    preference gives the leftmost-first match of the [regex] crate. *)
Fixpoint match_here (ps : list Piece) (s : list ascii)
    : option (list (list ascii) * nat) :=
  match ps with
  | [] => Some ([], 0)
  | p :: rest =>
      first_some (fun k =>
        match match_here rest (skipn k s) with
        | Some (caps, m) =>
            Some (((if p_cap p then [firstn k s] else []) ++ caps)%list, k + m)
        | None => None
        end) (counts (p_quant p) (length (take_while (p_class p) s)))
  end.

(** [Regex::captures_iter]: the successive non-overlapping matches, each
    searched from the end of the previous one; [skip] counts the
    characters of the last match still to pass over. The two patterns
    start with a literal, so a match is never empty and none starts at
    the end of the text. *)
Fixpoint caps_from (ps : list Piece) (skip : nat) (s : list ascii)
    : list (list (list ascii)) :=
  match s, skip with
  | [], _ => []
  | _ :: r, S k => caps_from ps k r
  | _ :: r, 0 =>
      match match_here ps s with
      | Some (caps, m) => caps :: caps_from ps (m - 1) r
      | None => caps_from ps 0 r
      end
  end.

Definition lit (c : ascii) : Piece := mkPiece (Ascii.eqb c) QOne false.

Definition lits (w : string) : list Piece := map lit (list_ascii_of_string w).

(** [\d] on ASCII text. *)
Definition is_digit (c : ascii) : bool :=
  match digit_val c with Some _ => true | None => false end.

Definition not_comma (c : ascii) : bool := negb (Ascii.eqb c ",").

(** [r"frame=\s*(\d+)"]. *)
Definition frame_re : list Piece :=
  (lits "frame=" ++ [mkPiece is_ws QStar false; mkPiece is_digit QPlus true])%list.

(** [r"Audio:\s*([^,]+)"]. *)
Definition audio_re : list Piece :=
  (lits "Audio:" ++ [mkPiece is_ws QStar false; mkPiece not_comma QPlus true])%list.

(** [caps.get(1)]. *)
Definition group1 (caps : list (list ascii)) : option string :=
  match caps with g :: _ => Some (string_of_list_ascii g) | [] => None end.

(** [Iterator::max] over [u64]. *)
Definition max_opt (l : list N) : option N :=
  fold_left (fun acc x => match acc with None => Some x | Some a => Some (N.max a x) end)
            l None.

(** What the probe run [sidecar("ffmpeg")?...output().await?] gives:
    the sidecar or the spawn fails, or the process ran (whatever its
    exit status) and wrote [stderr]. *)
Inductive ProbeRun :=
| ProbeSidecarErr
| ProbeSpawnErr
| ProbeOut (status : ExitStatus) (stderr : string).

(** Lines 52-55 before [max]: the frame numbers that parse as [u64]. *)
Definition stream_frames (stderr : string) : list N :=
  flat_map (fun caps =>
              match group1 caps with
              | Some g => match parse_u64 (trim g) with Some n => [n] | None => [] end
              | None => []
              end)
           (caps_from frame_re 0 (list_ascii_of_string stderr)).

(** Lines 57-60 before [next]: the trimmed codec texts. *)
Definition stream_codecs (stderr : string) : list string :=
  flat_map (fun caps => match group1 caps with Some g => [trim g] | None => [] end)
           (caps_from audio_re 0 (list_ascii_of_string stderr)).

(** [get_stream_info]: [inl] is [Ok (frames, codec)]. *)
Definition get_stream_info (r : ProbeRun) : (N * string) + Error :=
  match r with
  | ProbeSidecarErr => inr (Msg "sidecar error")
  | ProbeSpawnErr => inr io_error
  | ProbeOut _ stderr =>
      match max_opt (stream_frames stderr) with
      | None => inr (Msg "Failed to parse video frame count")
      | Some f =>
          match stream_codecs stderr with
          | c :: _ => inl (f, c)
          | [] => inr (Msg "Failed to parse audio codec")
          end
      end
  end.

(* ------------------------------------------------------------------ *)
(** ** The audio extraction [raw_flac] (lines 136-156) *)

(** [raw_flac]: [sidecar] is the outcome of [app.shell().sidecar("ffmpeg")],
    [run] that of [.status().await]. The first [unwrap] (line 140) comes
    before the sidecar lookup, the second one (line 145) after it. *)
Definition raw_flac (info : QueueInfo) (sidecar : bool) (run : ProcRun)
    : list GAct * MergeOutcome :=
  match find (is_type Audio) (tasks info) with
  | None => ([], MPanic "called `Option::unwrap()` on a `None` value")
  | Some t =>
      if negb sidecar then ([], MErr (Msg "sidecar error"))
      else
        match path t with
        | None => ([], MPanic "called `Option::unwrap()` on a `None` value")
        | Some p =>
            ([GSpawn ["-i"; p; "-vn"; "-acodec"; "flac"; output info]],
             match run with
             | PSpawnErr => MErr io_error
             | PStatus s =>
                 if success s then MOk
                 else MErr (Msg ("FFmpeg exited with status: " ++ pretty (exit_code s)))
             | PHang => MPending
             end)
        end
  end.

(* ------------------------------------------------------------------ *)
(** ** Notions used to state the properties, and concrete inputs *)

(** No key repeats within any 12 consecutive insertions. *)
Definition spaced (hist : list string) : Prop :=
  forall pre k post, hist = (pre ++ k :: post)%list -> ~ In k (lastn 11 pre).

Definition map_has (m : gmap string JVal) (k : string) : Prop := is_Some (m !! k).

(** The invariant of the window after the insertions [hist]. *)
Definition inv (hist : list string) (w : Window) : Prop :=
  w_keys w = map Some (lastn 12 hist) /\
  (forall k, map_has (w_map w) k -> In k (lastn 12 hist)) /\
  (spaced hist -> List.NoDup (lastn 12 hist) /\
                  forall k, map_has (w_map w) k <-> In k (lastn 12 hist)).

Definition kv (k : string) : string * JVal := (k, JU64 0).

(** Two insertions of ["a"] followed by eleven other keys. *)
Definition c3_history : list (string * JVal) :=
  map kv ["a"; "a"; "b"; "c"; "d"; "e"; "f"; "g"; "h"; "i"; "j"; "k"; "l"].

(** The events a list of actions sends (delivered or not). *)
Definition sends (acts : list MAct) : list DownloadEvent :=
  flat_map (fun a => match a with ASend e _ => [e] | _ => [] end) acts.

(** The events a list of actions delivers to the channel. *)
Definition delivered (acts : list MAct) : list DownloadEvent :=
  flat_map (fun a => match a with ASend e true => [e] | _ => [] end) acts.

Definition progress_of (c : MCtx) (e : DownloadEvent) : Prop :=
  exists f, e = Progress (mc_id c) (mc_gid c) (mc_frames c) f.

Definition finished_of (c : MCtx) : DownloadEvent := Finished (mc_id c) (mc_gid c).

Definition event_id (e : DownloadEvent) : string :=
  match e with Started i _ _ | Progress i _ _ _ | Finished i _ => i end.

Definition event_gid (e : DownloadEvent) : string :=
  match e with Started _ g _ | Progress _ g _ _ | Finished _ g => g end.

Definition event_kind (e : DownloadEvent) : option TaskType :=
  match e with Started _ _ k => Some k | _ => None end.

Definition nl : string := String "010"%char EmptyString.

(** One snapshot as [ffmpeg -progress] writes it. *)
Definition snapshot (fr prog : string) : string :=
  "frame=" ++ fr ++ nl ++ "fps=25" ++ nl ++ "stream_0_0_q=28.0" ++ nl ++
  "bitrate=N/A" ++ nl ++ "total_size=48" ++ nl ++ "out_time_us=0" ++ nl ++
  "out_time_ms=0" ++ nl ++ "out_time=00:00:00.000000" ++ nl ++ "dup_frames=0" ++ nl ++
  "drop_frames=0" ++ nl ++ "speed=N/A" ++ nl ++ "progress=" ++ prog ++ nl.

(** A float parser that knows the one float literal of the log. *)
Definition demo_f64 (s : string) : option bool :=
  if String.eqb s "28.0" then Some true else None.

Definition log1 : string := snapshot "120" "continue".
Definition log2 : string := log1 ++ snapshot "240" "end".

Definition obs_of (content : string) : Obs :=
  mkObs (Some (N.of_nat (String.length content))) true true content None.

Definition demo_world (send : nat -> bool) : MonWorld :=
  mkMonWorld (Some 2) [obs_of log1; obs_of log2] send.

Definition demo_task : Task := mkTask None Video (Some "video.m4s").

Definition demo_ctx : MCtx := mkMCtx "job" "" "p.log" 240 (fun _ => true).

Definition demo_state : MState := mkMState 0 empty_window 1.

(** The record decoded from the first snapshot. *)
Definition demo_log1 : FFmpegLog :=
  mkFFmpegLog 120 (F64_of_u64 25) (F64_lit "28.0") "N/A" 48 0 0
              "00:00:00.000000" 0 0 "N/A" "continue".

(** The cursor at the start of each iteration the loop runs. *)
Fixpoint cursor_trace (pf : string -> option bool) (c : MCtx) (st : MState)
    (obs : list Obs) : list N :=
  last_size st ::
  match obs with
  | [] => []
  | o :: rest =>
      match snd (tail_iter pf c st o) with
      | SNext st' => cursor_trace pf c st' rest
      | SStop _ => []
      end
  end.

(** The sizes the iterations observe never decrease, starting from [lo]. *)
Fixpoint sizes_from (lo : N) (obs : list Obs) : Prop :=
  match obs with
  | [] => True
  | o :: rest =>
      match o_meta o with
      | Some n => (lo <= n)%N /\ sizes_from n rest
      | None => True
      end
  end.

Fixpoint nondecreasing (l : list N) : Prop :=
  match l with
  | x :: ((y :: _) as r) => (x <= y)%N /\ nondecreasing r
  | _ => True
  end.

(** A log of eight bytes whose read fails at once. *)
Definition obs_read_fails : Obs :=
  mkObs (Some 8%N) true true ("frame=1" ++ nl) (Some 0).

Definition demo_info : QueueInfo :=
  mkQueueInfo "job" [demo_task; mkTask (Some "g2") Audio (Some "audio.m4s")] "/out/movie.mp4".

Definition demo_merge_world : MergeWorld :=
  mkMergeWorld (Some "/logs") "1700000000" true (Some (240%N, "aac")) true
               (PStatus (Exited 0)) (demo_world (fun _ => true)) true.

(** A queue of two video tasks and no audio task. *)
Definition no_audio_info : QueueInfo :=
  mkQueueInfo "job" [demo_task; mkTask None Video (Some "video2.m4s")] "/out/movie.mp4".

(** [w] as a prefix of [s]: what follows it. *)
Fixpoint strip_prefix (w s : list ascii) : option (list ascii) :=
  match w, s with
  | [], _ => Some s
  | c :: w', d :: s' => if Ascii.eqb c d then strip_prefix w' s' else None
  | _ :: _, [] => None
  end.

(** [w] occurs in [s]. *)
Fixpoint contains (w s : list ascii) : bool :=
  match strip_prefix w s with
  | Some _ => true
  | None => match s with [] => false | _ :: r => contains w r end
  end.

(** The codec text read directly off the characters: after the first
    [Audio:] whose blanks are not followed by a comma, up to the next comma. *)
Fixpoint audio_text (s : list ascii) : option (list ascii) :=
  match s with
  | [] => None
  | _ :: r =>
      match strip_prefix (list_ascii_of_string "Audio:") s with
      | Some (c :: t) =>
          if Ascii.eqb c "," then audio_text r else Some (take_while not_comma (c :: t))
      | _ => audio_text r
      end
  end.

(** A stderr segment [frame=], blanks [pad], digits [d], then [tail];
    [seg_ok] asks that [d] be a maximal non-empty digit run and that
    [tail] hold no further [frame=]. *)
Definition frame_lit : list ascii := list_ascii_of_string "frame=".

Definition seg_text (sg : list ascii * list ascii * list ascii) : list ascii :=
  let '(pad, d, tail) := sg in (frame_lit ++ pad ++ d ++ tail)%list.

Definition seg_ok (sg : list ascii * list ascii * list ascii) : bool :=
  let '(pad, d, tail) := sg in
  forallb is_ws pad && negb (Nat.eqb (length d) 0) && forallb is_digit d &&
  negb (contains frame_lit tail) &&
  match tail with c :: _ => negb (is_digit c) | [] => true end.

Definition seg_value (sg : list ascii * list ascii * list ascii) : list N :=
  let '(_, d, _) := sg in
  match parse_u64 (string_of_list_ascii d) with Some n => [n] | None => [] end.

Definition starts_frame (X : list ascii) : Prop := X = [] \/ exists Y, X = (frame_lit ++ Y)%list.

(** The fields of [FFmpegLog] by their serde type. *)
Definition u64_fields : list string :=
  ["frame"; "total_size"; "out_time_us"; "out_time_ms"; "dup_frames"; "drop_frames"].
Definition u32_fields : list string := ["dup_frames"; "drop_frames"].
Definition f64_fields : list string := ["fps"; "stream_0_0_q"].
Definition str_fields : list string := ["bitrate"; "out_time"; "speed"; "progress"].





(** The actions of the merge's setup (directory creation and probe). *)
Definition setup_act (a : GAct) : Prop :=
  (exists d, a = GMkdir d) \/ (exists v au, a = GProbe v au).

(** A probe stderr cut into a head and frame segments; the second
    segment's number overflows a [u64]. *)
Definition demo_head : list ascii :=
  list_ascii_of_string ("Stream #1:0: Audio: aac (LC), 44100 Hz" ++ nl).
Definition demo_segs : list (list ascii * list ascii * list ascii) :=
  [(list_ascii_of_string "  ", list_ascii_of_string "120", list_ascii_of_string " fps=0.0");
   (list_ascii_of_string " ", list_ascii_of_string "99999999999999999999", list_ascii_of_string " q=1");
   (list_ascii_of_string "  ", list_ascii_of_string "240", list_ascii_of_string (" fps=0.0" ++ nl))].


(** The twelve fields of the first snapshot of [log1], as the tailer
    stores them. *)
Definition demo_fields : list (string * string) :=
  [("frame", "120"); ("fps", "25"); ("stream_0_0_q", "28.0"); ("bitrate", "N/A");
   ("total_size", "48"); ("out_time_us", "0"); ("out_time_ms", "0");
   ("out_time", "00:00:00.000000"); ("dup_frames", "0"); ("drop_frames", "0");
   ("speed", "N/A"); ("progress", "continue")].

Definition demo_fields_map : gmap string JVal :=
  list_to_map (map (fun kv => (fst kv, coerce_value demo_f64 (snd kv))) demo_fields).

(** A probe stderr whose first [Audio:] is directly followed by a comma. *)
Definition codec_stderr : string :=
  "Audio:, none" ++ nl ++ "Stream #1:0: Audio:  aac (LC), 44100 Hz" ++ nl.


(* ================================================================== *)
(** * Properties *)

(* ------------------------------------------------------------------ *)
(** ** The rolling field window *)

Module WindowFacts.
Local Open Scope list_scope.

Lemma length_lastn {A} n (l : list A) : length (lastn n l) = Nat.min n (length l).
Proof. unfold lastn. rewrite length_skipn. lia. Qed.

Lemma lastn_snoc {A} n (l : list A) x : lastn (S n) (l ++ [x]) = lastn n l ++ [x].
Proof.
  unfold lastn. rewrite length_app. simpl.
  replace (length l + 1 - S n) with (length l - n) by lia.
  rewrite skipn_app. replace (length l - n - length l) with 0 by lia. reflexivity.
Qed.

Lemma lastn_short {A} n (l : list A) : length l <= n -> lastn n l = l.
Proof. intros H. unfold lastn. replace (length l - n) with 0 by lia. reflexivity. Qed.

Lemma lastn_S_cons {A} n (l : list A) :
  S n <= length l -> exists x, lastn (S n) l = x :: lastn n l.
Proof.
  intros H. unfold lastn.
  destruct (skipn (length l - S n) l) as [|x t] eqn:E.
  - apply (f_equal (@length A)) in E. rewrite length_skipn in E. simpl in E. lia.
  - exists x. f_equal.
    replace (length l - n) with (1 + (length l - S n)) by lia.
    rewrite <- skipn_skipn, E. reflexivity.
Qed.

Lemma In_lastn {A} n (l : list A) x : In x (lastn n l) -> In x l.
Proof.
  unfold lastn. intros H. rewrite <- (firstn_skipn (length l - n) l).
  apply in_or_app. right. exact H.
Qed.

Lemma evict_lastn (hist : list string) (m : gmap string JVal) :
  (length hist < field_count /\ lastn 12 hist = lastn 11 hist /\
   evict (map Some (lastn 12 hist)) m = (map Some (lastn 11 hist), m))
  \/ (exists o, lastn 12 hist = o :: lastn 11 hist /\
        evict (map Some (lastn 12 hist)) m = (map Some (lastn 11 hist), delete o m)).
Proof.
  unfold field_count.
  destruct (Nat.lt_ge_cases (length hist) 12) as [Hl | Hl].
  - left. rewrite (lastn_short 12) by lia. rewrite (lastn_short 11) by lia.
    split; [exact Hl | split; [reflexivity |]].
    unfold evict. rewrite length_map.
    destruct (Nat.leb_spec field_count (length hist)); unfold field_count in *; [lia | reflexivity].
  - right. destruct (lastn_S_cons 11 hist) as [o Ho]; [lia |].
    exists o. split; [exact Ho |]. rewrite Ho. unfold evict. simpl map.
    replace (length (Some o :: map Some (lastn 11 hist))) with 12.
    + reflexivity.
    + simpl. rewrite length_map, length_lastn. lia.
Qed.

Lemma spaced_snoc hist k :
  spaced (hist ++ [k]) -> spaced hist /\ ~ In k (lastn 11 hist).
Proof.
  intros H. split.
  - intros pre k' post E. apply (H pre k' (post ++ [k])). rewrite E.
    rewrite <- app_assoc. reflexivity.
  - apply (H hist k []). reflexivity.
Qed.

Lemma inv_empty : inv [] empty_window.
Proof.
  split; [reflexivity | split].
  - intros k [v Hv]. simpl in Hv. rewrite lookup_empty in Hv. discriminate.
  - intros _. split; [constructor |]. intros k. split; [| intros []].
    intros [v Hv]. simpl in Hv. rewrite lookup_empty in Hv. discriminate.
Qed.

Lemma has_insert m k v k' : map_has (<[k := v]> m) k' <-> k' = k \/ map_has m k'.
Proof.
  unfold map_has. destruct (decide (k = k')) as [->|Hne].
  - rewrite lookup_insert_eq. split; [left; reflexivity | intros _; eexists; reflexivity].
  - rewrite lookup_insert_ne by exact Hne. split; [right; assumption |].
    intros [->|H]; [congruence | exact H].
Qed.

Lemma has_delete m o k : map_has (delete o m) k <-> k <> o /\ map_has m k.
Proof.
  unfold map_has. destruct (decide (o = k)) as [->|Hne].
  - rewrite lookup_delete_eq. split; [intros [v Hv]; discriminate | intros [H _]; congruence].
  - rewrite lookup_delete_ne by exact Hne. split; [intros H; split; congruence | tauto].
Qed.

Lemma inv_insert hist w k v : inv hist w -> inv (hist ++ [k]) (window_insert k v w).
Proof.
  intros (Hkeys & Hsub & Hex). unfold inv, window_insert. rewrite Hkeys.
  rewrite (lastn_snoc 11).
  destruct (evict_lastn hist (w_map w)) as [(Hl & E12 & Hev) | (o & E12 & Hev)];
    rewrite Hev; simpl; (split; [rewrite map_app; reflexivity | split]).
  - intros k' Hk'. apply has_insert in Hk'. apply in_or_app.
    destruct Hk' as [->|Hk']; [right; left; reflexivity |].
    left. rewrite <- E12. apply Hsub, Hk'.
  - intros Hsp. apply spaced_snoc in Hsp as [Hsp Hk].
    destruct (Hex Hsp) as [Hnd Hiff]. rewrite E12 in Hnd, Hiff. split.
    + apply Permutation_NoDup with (k :: lastn 11 hist).
      * apply Permutation_cons_append.
      * constructor; assumption.
    + intros k'. rewrite has_insert, Hiff, in_app_iff. simpl. intuition.
  - intros k' Hk'. apply has_insert in Hk'. apply in_or_app.
    destruct Hk' as [->|Hk']; [right; left; reflexivity |].
    left. apply has_delete in Hk' as [Hne Hk']. apply Hsub in Hk'.
    rewrite E12 in Hk'. destruct Hk' as [->|Hk']; [congruence | exact Hk'].
  - intros Hsp. apply spaced_snoc in Hsp as [Hsp Hk].
    destruct (Hex Hsp) as [Hnd Hiff]. rewrite E12 in Hnd, Hiff.
    inversion Hnd as [|? ? Ho Hnd']; subst. split.
    + apply Permutation_NoDup with (k :: lastn 11 hist).
      * apply Permutation_cons_append.
      * constructor; assumption.
    + intros k'. rewrite has_insert, has_delete, Hiff, in_app_iff. simpl.
      split.
      * intros [->|[Hne [->|H]]]; [right; left; reflexivity | congruence | left; exact H].
      * intros [H|[->|[]]]; [right; split; [intros ->; contradiction | right; exact H]
                           | left; reflexivity].
Qed.

Lemma inv_feed kvs : inv (map fst kvs) (feed_pairs kvs empty_window).
Proof.
  induction kvs as [|kv kvs IH] using rev_ind.
  - apply inv_empty.
  - unfold feed_pairs. rewrite fold_left_app. simpl. rewrite map_app. simpl.
    apply inv_insert, IH.
Qed.

Lemma size_le_keys (m : gmap string JVal) (l : list string) :
  (forall k, map_has m k -> In k l) -> size m <= length l.
Proof.
  intros H. rewrite <- length_map_to_list.
  rewrite <- (length_map fst (map_to_list m)).
  apply NoDup_incl_length.
  - apply NoDup_ListNoDup. apply NoDup_fst_map_to_list.
  - intros k Hk. apply in_map_iff in Hk as [[k' v] [<- Hin]]. simpl.
    apply H. exists v. apply elem_of_map_to_list. apply list_elem_of_In. exact Hin.
Qed.

End WindowFacts.

Lemma window_has_has w k : window_has w k = true <-> map_has (w_map w) k.
Proof.
  unfold window_has, map_has. destruct (w_map w !! k); split; intros H.
  - eexists; reflexivity.
  - reflexivity.
  - discriminate.
  - destruct H as [? H]; discriminate.
Qed.

Lemma NoDup_spaced (l : list string) : List.NoDup l -> spaced l.
Proof.
  intros Hnd pre k post -> Hin. apply WindowFacts.In_lastn in Hin.
  apply NoDup_remove_2 in Hnd. apply Hnd. apply in_or_app. left. exact Hin.
Qed.

(** C3 (amended). After every sequence of insertions into the rolling
    window (starting from the empty window, as [monitor] does): the key
    log holds at most 12 keys and the map at most 12 entries; the key log
    is exactly the keys of the 12 most recent insertions, in insertion
    order (the oldest is evicted first, whatever the keys are); every key
    of the map is one of them; when no key repeats within 12 consecutive
    insertions, the map holds exactly those keys; and after 13 distinct
    keys the first one is absent. *)
Theorem window_fifo_bounded (kvs : list (string * JVal)) :
  let w := feed_pairs kvs empty_window in
  let recent := lastn 12 (map fst kvs) in
  length (w_keys w) <= 12 /\ size (w_map w) <= 12 /\
  w_keys w = map Some recent /\
  (forall k, window_has w k = true -> In k recent) /\
  (spaced (map fst kvs) -> forall k, window_has w k = true <-> In k recent) /\
  (length kvs = 13 -> List.NoDup (map fst kvs) ->
     forall k0 v0 rest, kvs = (k0, v0) :: rest -> window_has w k0 = false).
Proof.
  intros w recent.
  destruct (WindowFacts.inv_feed kvs) as (Hkeys & Hsub & Hex).
  fold w in Hkeys, Hsub, Hex. fold recent in Hkeys, Hsub, Hex.
  assert (Hlen : length recent <= 12).
  { unfold recent. rewrite WindowFacts.length_lastn. lia. }
  split; [rewrite Hkeys, length_map; exact Hlen |].
  split; [etransitivity; [apply WindowFacts.size_le_keys, Hsub | exact Hlen] |].
  split; [exact Hkeys |].
  split; [intros k Hk; apply Hsub, window_has_has, Hk |].
  split.
  - intros Hsp k. rewrite window_has_has. apply (proj2 (Hex Hsp)).
  - intros H13 Hnd k0 v0 rest ->.
    destruct (window_has w k0) eqn:E; [exfalso | reflexivity].
    apply window_has_has in E.
    destruct (Hex (NoDup_spaced _ Hnd)) as [_ Hiff].
    apply Hiff in E. unfold recent in E. simpl in E, H13.
    unfold lastn in E. simpl in E. rewrite length_map in E.
    replace (length rest - 11) with 1 in E by lia. simpl in E.
    inversion Hnd; subst. contradiction.
Qed.

(** C3, counterexample. With a key repeated within 12 insertions, the
    eviction of its older copy removes it from the map although it is
    among the keys of the 12 most recent insertions. *)
Lemma window_repeated_key_evicted :
  In "a" (lastn 12 (map fst c3_history)) /\
  window_has (feed_pairs c3_history empty_window) "a" = false.
Proof. split; [simpl; auto | vm_compute; reflexivity]. Qed.

(** Witness of [window_fifo_bounded] on 13 distinct keys. *)
Lemma window_fifo_bounded_witness :
  window_has (feed_pairs (map kv ["k0"; "k1"; "k2"; "k3"; "k4"; "k5"; "k6"; "k7"; "k8";
                                  "k9"; "k10"; "k11"; "k12"]) empty_window) "k0" = false.
Proof.
  destruct (window_fifo_bounded
              (map kv ["k0"; "k1"; "k2"; "k3"; "k4"; "k5"; "k6"; "k7"; "k8";
                       "k9"; "k10"; "k11"; "k12"])) as (_ & _ & _ & _ & _ & H).
  apply (H eq_refl) with (v0 := JU64 0)
    (rest := map kv ["k1"; "k2"; "k3"; "k4"; "k5"; "k6"; "k7"; "k8";
                     "k9"; "k10"; "k11"; "k12"]); [| reflexivity].
  apply NoDup_ListNoDup. apply (@bool_decide_unpack _ (NoDup_dec _)). vm_compute. exact I.
Defined.

(* ------------------------------------------------------------------ *)
(** ** The tail loop *)

Module TailFacts.
Local Open Scope list_scope.

Lemma sends_app a b : sends (a ++ b) = sends a ++ sends b.
Proof. unfold sends. apply flat_map_app. Qed.

Ltac iter_cases :=
  repeat match goal with
         | |- context [match o_meta ?o with _ => _ end] => destruct (o_meta o)
         | |- context [negb (o_open ?o)] => destruct (o_open o)
         | |- context [bool_decide ?p] => destruct (bool_decide p)
         | |- context [match decode_log ?m with _ => _ end] => destruct (decode_log m)
         | |- context [String.eqb ?a ?b] => destruct (String.eqb a b)
         | |- context [mc_send ?c ?n] => destruct (mc_send c n)
         end.

(** One iteration sends Progress events of the job, or ends the run with
    a Finished send as its last action, successfully when delivered. *)
Lemma tail_iter_shape pf c st o :
  let '(acts, s) := tail_iter pf c st o in
  (Forall (progress_of c) (sends acts) /\ s <> SStop OOk) \/
  (exists ok : bool, s = SStop (if ok then OOk else OErr send_error) /\
     sends acts = [finished_of c] /\ last acts = Some (ASend (finished_of c) ok)).
Proof.
  unfold tail_iter. iter_cases; cbn -[bool_decide];
    try (left; split; [repeat constructor; eexists; reflexivity | discriminate]).
  all: right; first [ exists true; split; [reflexivity | split; reflexivity]
                   | exists false; split; [reflexivity | split; reflexivity] ].
Qed.

Lemma tail_loop_shape pf c st obs :
  let '(acts, out) := tail_loop pf c st obs in
  exists ps fin, sends acts = ps ++ fin /\ Forall (progress_of c) ps /\
    (fin = [] \/ fin = [finished_of c]) /\
    (out = OOk -> fin = [finished_of c] /\ last acts = Some (ASend (finished_of c) true)).
Proof.
  revert st. induction obs as [|o rest IH]; intros st; simpl.
  - exists [], []. split; [reflexivity |]. split; [constructor |].
    split; [left; reflexivity | discriminate].
  - pose proof (tail_iter_shape pf c st o) as Hi.
    destruct (tail_iter pf c st o) as [acts s].
    destruct s as [st'|out].
    + specialize (IH st'). destruct (tail_loop pf c st' rest) as [acts' out'].
      destruct IH as (ps & fin & Hs & Hps & Hfin & Hok).
      destruct Hi as [[Hp _] | (ok & Habs & _)]; [| destruct ok; discriminate].
      exists (sends acts ++ ps), fin.
      split; [rewrite sends_app, Hs, app_assoc; reflexivity |].
      split; [apply Forall_app; split; assumption |].
      split; [exact Hfin |].
      intros Ho. destruct (Hok Ho) as [Hf Hl]. split; [exact Hf |].
      destruct acts' as [|a acts']; [simpl in Hl; discriminate |].
      rewrite (list.last_app_cons acts). exact Hl.
    + destruct Hi as [[Hp Hne] | (ok & Heq & Hs & Hl)].
      * exists (sends acts), []. split; [rewrite app_nil_r; reflexivity |].
        split; [exact Hp |]. split; [left; reflexivity |].
        intros ->. contradiction.
      * injection Heq as ->. exists [], [finished_of c].
        split; [exact Hs |]. split; [constructor |]. split; [right; reflexivity |].
        destruct ok; [intros _; split; [reflexivity | exact Hl] | discriminate].
Qed.

Lemma wait_acts_shape n :
  exists pre, wait_acts n = pre ++ [AExists true] /\
    Forall (fun a => a = AExists false \/ a = ASleep 250) pre.
Proof.
  exists (concat (repeat [AExists false; ASleep 250] n)). split; [reflexivity |].
  induction n as [|n IH]; simpl; [constructor |].
  constructor; [left; reflexivity |]. constructor; [right; reflexivity | exact IH].
Qed.

(** The whole run of [monitor]: the existence polls, then one Started
    event, then Progress events of the job, then at most one Finished
    event, which is the last action of a successful run. *)
Lemma monitor_shape pf id task ppath frames mw :
  let '(acts, out) := monitor pf id task ppath frames mw in
  let g := gid_or_empty task in
  (acts = [] /\ out = OPending) \/
  exists pre ok rest ps fin,
    acts = pre ++ [AExists true; ASend (Started id g Merge) ok] ++ rest /\
    Forall (fun a => a = AExists false \/ a = ASleep 250) pre /\
    (ok = false -> rest = [] /\ out = OErr send_error) /\
    sends rest = ps ++ fin /\
    Forall (fun e => exists f, e = Progress id g frames f) ps /\
    (fin = [] \/ fin = [Finished id g]) /\
    (out = OOk -> fin = [Finished id g] /\ last acts = Some (ASend (Finished id g) true)).
Proof.
  unfold monitor. cbv zeta.
  destruct (mw_polls mw) as [n|]; [| left; split; reflexivity].
  destruct (wait_acts_shape n) as (pre & Hw & Hpre).
  destruct (mw_send mw 0) eqn:Hs0.
  - pose proof (tail_loop_shape pf (mkMCtx id (gid_or_empty task) ppath frames (mw_send mw))
                  (mkMState 0 empty_window 1) (mw_iters mw)) as H.
    destruct (tail_loop _ _ _ _) as [acts out].
    destruct H as (ps & fin & Hs & Hps & Hfin & Hok).
    cbv beta iota. right. exists pre, true, acts, ps, fin. rewrite Hw, <- app_assoc. simpl.
    split; [reflexivity |]. split; [exact Hpre |].
    split; [intros Habs; discriminate |].
    split; [exact Hs |]. split; [exact Hps |]. split; [exact Hfin |].
    intros Ho. destruct (Hok Ho) as [Hf Hl]. split; [exact Hf |].
    destruct acts as [|a acts]; [simpl in Hl; discriminate |].
    rewrite (list.last_app_cons pre). simpl. exact Hl.
  - cbv beta iota. right. exists pre, false, [], [], []. rewrite Hw, <- app_assoc. simpl.
    split; [reflexivity |]. split; [exact Hpre |].
    split; [intros _; split; reflexivity |].
    split; [reflexivity |]. split; [constructor |]. split; [left; reflexivity |].
    discriminate.
Qed.

End TailFacts.

Lemma sends_waits pre :
  Forall (fun a => a = AExists false \/ a = ASleep 250) pre -> sends pre = [].
Proof.
  induction 1 as [|a l [-> | ->] _ IH]; [reflexivity | |]; simpl; exact IH.
Qed.

(** C4. The events of every run of [monitor] are ordered: none at all
    (the file never appeared), or exactly one Started event first, sent
    right after the existence check that found the file and before any
    read of it, then only Progress events of the job, then at most one
    Finished event, which ends the sequence. *)
Theorem monitor_events_ordered pf id task ppath frames mw :
  let '(acts, out) := monitor pf id task ppath frames mw in
  let g := gid_or_empty task in
  sends acts = [] \/
  exists pre ok rest ps fin,
    acts = (pre ++ [AExists true; ASend (Started id g Merge) ok] ++ rest)%list /\
    (forall a, In a pre -> a = AExists false \/ a = ASleep 250) /\
    sends acts = Started id g Merge :: (ps ++ fin)%list /\
    Forall (fun e => exists f, e = Progress id g frames f) ps /\
    (fin = [] \/ fin = [Finished id g]).
Proof.
  pose proof (TailFacts.monitor_shape pf id task ppath frames mw) as H.
  destruct (monitor pf id task ppath frames mw) as [acts out]. cbv zeta in *.
  destruct H as [[-> _] | (pre & ok & rest & ps & fin & Ha & Hpre & _ & Hs & Hps & Hfin & _)].
  - left. reflexivity.
  - right. exists pre, ok, rest, ps, fin.
    split; [exact Ha |]. split; [exact (proj1 (List.Forall_forall _ _) Hpre) |].
    split; [| split; assumption].
    rewrite Ha, !TailFacts.sends_app, (sends_waits _ Hpre). simpl.
    rewrite Hs. reflexivity.
Qed.

(** C10 (amended). Every event [monitor] sends carries the job id it was
    given and the group id of the task, or the empty string when the task
    has no group id; the only event with a task kind, Started, carries
    [Merge], whatever the kind of the task. *)
Theorem monitor_event_identity pf id task ppath frames mw :
  Forall (fun e => event_id e = id /\ event_gid e = gid_or_empty task /\
                   (gid task = None -> event_gid e = "") /\
                   forall k, event_kind e = Some k -> k = Merge)
         (sends (fst (monitor pf id task ppath frames mw))).
Proof.
  pose proof (TailFacts.monitor_shape pf id task ppath frames mw) as H.
  destruct (monitor pf id task ppath frames mw) as [acts out]. cbv zeta in *. simpl fst.
  assert (Hg : gid task = None -> gid_or_empty task = "")
    by (unfold gid_or_empty; intros ->; reflexivity).
  destruct H as [[-> _] | (pre & ok & rest & ps & fin & Ha & Hpre & _ & Hs & Hps & Hfin & _)].
  - constructor.
  - rewrite Ha, !TailFacts.sends_app, (sends_waits _ Hpre). simpl. rewrite Hs.
    constructor; [split; [reflexivity | split; [reflexivity | split; [exact Hg | intros k [= <-]; reflexivity]]] |].
    apply Forall_app. split.
    + eapply Forall_impl; [exact Hps |]. intros e [f ->]. simpl.
      split; [reflexivity | split; [reflexivity | split; [exact Hg | discriminate]]].
    + destruct Hfin as [-> | ->]; repeat constructor; [exact Hg | discriminate].
Qed.

(* ------------------------------------------------------------------ *)
(** ** A concrete ffmpeg progress log *)

(** Witness of [monitor_event_identity]. *)
Lemma monitor_event_identity_witness :
  Forall (fun e => event_id e = "job" /\ event_gid e = gid_or_empty demo_task /\
                   (gid demo_task = None -> event_gid e = "") /\
                   forall k, event_kind e = Some k -> k = Merge)
         (sends (fst (monitor demo_f64 "job" demo_task "p.log" 240 (demo_world (fun _ => true))))).
Proof. apply monitor_event_identity. Defined.

(** C10, counterexample. The Started event of a run on a video task
    carries the kind [Merge], not the kind [Video] of the task. *)
Lemma monitor_started_kind_not_task_kind :
  In (Started "job" "" Merge)
     (sends (fst (monitor demo_f64 "job" demo_task "p.log" 240 (demo_world (fun _ => true))))) /\
  task_type demo_task = Video /\ Merge <> Video.
Proof. split; [vm_compute; left; reflexivity | split; [reflexivity | discriminate]]. Qed.

(* ------------------------------------------------------------------ *)
(** ** One iteration of the tail loop after a successful read *)

(** C5 (amended). In an iteration whose non-empty window decodes to the
    record [log]: for progress ["continue"] the iteration sends one
    Progress event whose total is exactly the frame count [mc_frames c]
    given to [monitor] and whose current count is exactly the record's
    frame, then keeps polling if the channel took it and fails otherwise;
    for ["end"] it sends one Finished event and ends the run, with
    success if the channel took it and with an error otherwise; for any
    other value it sends nothing and keeps polling. *)
Theorem tail_iter_decoded pf c st o len log :
  o_meta o = Some len -> o_open o = true ->
  let win := fold_left (process_line pf) (read_from o (last_size st)) (window st) in
  bool_decide (w_map win = ∅) = false ->
  decode_log (w_map win) = Some log ->
  let '(acts, s) := tail_iter pf c st o in
  (progress log = "continue" ->
     sends acts = [Progress (mc_id c) (mc_gid c) (mc_frames c) (frame log)] /\
     s = if mc_send c (sent st) then SNext (mkMState len win (S (sent st)))
         else SStop (OErr send_error)) /\
  (progress log = "end" ->
     sends acts = [Finished (mc_id c) (mc_gid c)] /\
     s = SStop (if mc_send c (sent st) then OOk else OErr send_error)) /\
  (progress log <> "continue" -> progress log <> "end" ->
     sends acts = [] /\ s = SNext (mkMState len win (sent st))).
Proof.
  intros Hm Ho win He Hd. unfold tail_iter. rewrite Hm, Ho. cbn zeta. fold win.
  rewrite He, Hd. cbv beta iota delta [negb].
  destruct (String.eqb_spec (progress log) "continue") as [Hc|Hc];
    [| destruct (String.eqb_spec (progress log) "end") as [Hn|Hn]];
    cbv beta iota delta [negb].
  - destruct (mc_send c (sent st)); (split; [| split]);
      first [ intros _; split; reflexivity
            | intros Hn; rewrite Hc in Hn; discriminate
            | intros Hc'; contradiction ].
  - destruct (mc_send c (sent st)); (split; [intros Hc'; contradiction | split]);
      first [ intros _; split; reflexivity | intros _ Hn'; contradiction ].
  - split; [intros Hc'; contradiction | split; [intros Hn'; contradiction |]].
    intros _ _. split; reflexivity.
Qed.

(** Witness of [tail_iter_decoded] on the first snapshot. *)
Lemma tail_iter_decoded_witness :
  sends (fst (tail_iter demo_f64 demo_ctx demo_state (obs_of log1)))
  = [Progress "job" "" 240 120].
Proof.
  pose proof (tail_iter_decoded demo_f64 demo_ctx demo_state (obs_of log1)
                (N.of_nat (String.length log1)) demo_log1 eq_refl eq_refl) as H.
  cbv zeta in H.
  specialize (H ltac:(vm_compute; reflexivity) ltac:(vm_compute; reflexivity)).
  destruct (tail_iter demo_f64 demo_ctx demo_state (obs_of log1)) as [acts s].
  destruct H as [Hc _]. apply (Hc eq_refl).
Defined.

(** C5, counterexample. On the two-snapshot log, when the channel
    refuses the Finished event (the third send), the run that decoded
    [progress=end] ends with an error and no Finished event was
    delivered. *)
Lemma monitor_end_send_refused :
  let r := monitor demo_f64 "job" demo_task "p.log" 240
             (demo_world (fun n => negb (Nat.eqb n 2))) in
  snd r = OErr send_error /\
  delivered (fst r) = [Started "job" "" Merge; Progress "job" "" 240 120] /\
  In (ADecode true) (fst r).
Proof. vm_compute. split; [reflexivity | split; [reflexivity | auto 20]]. Qed.

(** C8. In an iteration that got the file's metadata and opened it: if
    the window is empty after the read, nothing is decoded and the loop
    goes on without error; otherwise the window is decoded, and when
    decoding fails the run ends with the error "Failed to parse FFmpeg
    Log". *)
Theorem tail_iter_decode_step pf c st o len :
  o_meta o = Some len -> o_open o = true ->
  let lines := read_from o (last_size st) in
  let win := fold_left (process_line pf) lines (window st) in
  let '(acts, s) := tail_iter pf c st o in
  (w_map win = ∅ ->
     acts = [ARead (read_start o (last_size st)) lines] /\
     s = SNext (mkMState len win (sent st))) /\
  (w_map win <> ∅ ->
     (exists ok, In (ADecode ok) acts) /\
     (decode_log (w_map win) = None ->
        acts = [ARead (read_start o (last_size st)) lines; ADecode false] /\
        s = SStop (OErr (Ctx "Failed to parse FFmpeg Log" (Msg "serde error"))))).
Proof.
  intros Hm Ho lines win. unfold tail_iter. rewrite Hm, Ho. cbn zeta. fold lines win.
  cbv beta iota delta [negb].
  destruct (bool_decide (w_map win = ∅)) eqn:He; cbv beta iota.
  - apply bool_decide_eq_true_1 in He.
    split; [intros _; split; reflexivity | intros Hne; contradiction].
  - apply bool_decide_eq_false_1 in He.
    destruct (decode_log (w_map win)) as [log|] eqn:Hd; cbv beta iota.
    + destruct (String.eqb (progress log) "continue");
        [| destruct (String.eqb (progress log) "end")];
        try destruct (mc_send c (sent st)); cbv beta iota;
        (split; [intros Habs; contradiction | intros _]);
        (split; [exists true; simpl; auto 10 | intros; discriminate]).
    + split; [intros Habs; contradiction | intros _].
      split; [exists false; simpl; auto | intros _; split; reflexivity].
Qed.

(** Witness of [tail_iter_decode_step]: the window after the first
    snapshot is not empty and is decoded. *)
Lemma tail_iter_decode_step_witness :
  exists ok, In (ADecode ok) (fst (tail_iter demo_f64 demo_ctx demo_state (obs_of log1))).
Proof.
  pose proof (tail_iter_decode_step demo_f64 demo_ctx demo_state (obs_of log1)
                (N.of_nat (String.length log1)) eq_refl eq_refl) as H.
  cbv zeta in H.
  destruct (tail_iter demo_f64 demo_ctx demo_state (obs_of log1)) as [acts s].
  destruct H as [_ H]. apply H.
  vm_compute. discriminate.
Defined.

(* ------------------------------------------------------------------ *)
(** ** The read cursor *)

Lemma tail_iter_next_cursor pf c st o acts st' :
  tail_iter pf c st o = (acts, SNext st') -> o_meta o = Some (last_size st').
Proof.
  unfold tail_iter. destruct (o_meta o) as [len|]; [| intros [= _ Habs]].
  cbv beta iota zeta delta [negb].
  destruct (o_open o); cbv beta iota; [| intros [= _ Habs]].
  destruct (bool_decide _); cbv beta iota; [intros [= _ <-]; reflexivity |].
  destruct (decode_log _) as [log|]; cbv beta iota; [| intros [= _ Habs]].
  destruct (String.eqb (progress log) "continue");
    [| destruct (String.eqb (progress log) "end")];
    try destruct (mc_send c (sent st)); cbv beta iota;
    first [ intros [= _ <-]; reflexivity | intros [= _ Habs] ].
Qed.

(** C9 (amended). Every iteration that goes on ends with the cursor equal
    to the file size observed at its start, whatever the read gave: an
    iteration that got the metadata and opened the file either ends the
    run or sets the cursor to that size, also when the read failed or
    stopped at a partial line. When the observed sizes never decrease,
    the cursor values of a run never decrease. *)
Theorem tail_cursor pf c st o obs :
  (forall acts st', tail_iter pf c st o = (acts, SNext st') ->
     o_meta o = Some (last_size st')) /\
  (forall len, o_meta o = Some len -> o_open o = true ->
     (exists out, snd (tail_iter pf c st o) = SStop out) \/
     (exists st', snd (tail_iter pf c st o) = SNext st' /\ last_size st' = len)) /\
  (sizes_from (last_size st) obs -> nondecreasing (cursor_trace pf c st obs)).
Proof.
  split; [apply tail_iter_next_cursor |]. split.
  - intros len Hm _. destruct (tail_iter pf c st o) as [acts [st'|out]] eqn:E.
    + right. exists st'. split; [reflexivity |].
      apply tail_iter_next_cursor in E. rewrite Hm in E. injection E as ->. reflexivity.
    + left. exists out. reflexivity.
  - revert st. induction obs as [|o' rest IH]; intros st Hs; simpl; [exact I |].
    destruct (tail_iter pf c st o') as [acts [st'|out]] eqn:E; simpl; [| exact I].
    pose proof (tail_iter_next_cursor _ _ _ _ _ _ E) as Hm.
    simpl in Hs. rewrite Hm in Hs. destruct Hs as [Hle Hs].
    specialize (IH st' Hs). destruct rest as [|o'' rest']; simpl in *.
    + split; [exact Hle | exact I].
    + split; [exact Hle | exact IH].
Qed.

(** Witness of [tail_cursor] on the two-snapshot log. *)
Lemma tail_cursor_witness :
  nondecreasing (cursor_trace demo_f64 demo_ctx demo_state [obs_of log1; obs_of log2]).
Proof.
  apply (proj2 (proj2 (tail_cursor demo_f64 demo_ctx demo_state (obs_of log1)
                                   [obs_of log1; obs_of log2]))).
  vm_compute. split; [discriminate | split; [discriminate | exact I]].
Defined.

(** C9, counterexample. The cursor advances from 0 to 8 in an iteration
    whose read failed and read no line. *)
Lemma cursor_advances_after_failed_read :
  tail_iter demo_f64 demo_ctx demo_state obs_read_fails
  = ([ARead 0 []], SNext (mkMState 8 empty_window 1)) /\ last_size demo_state = 0%N.
Proof. split; [vm_compute; reflexivity | reflexivity]. Qed.

(* ------------------------------------------------------------------ *)
(** ** The merge orchestrator *)

Module MergeFacts.

Lemma merge_setup_early info w acts o :
  merge_setup info w = inl (acts, o) -> o <> MOk.
Proof.
  unfold merge_setup.
  repeat match goal with
         | |- context [match ?x with _ => _ end] => destruct x
         end; cbv beta iota zeta; intros [= _ <-]; discriminate.
Qed.

Lemma ffmpeg_task_ok info jc w :
  (exists facts, ffmpeg_task info jc w = Some (facts, TOk)) <->
  exists p0 p1 s, sidecar_ok w = true /\ nth 0 (jc_paths jc) None = Some p0 /\
    nth 1 (jc_paths jc) None = Some p1 /\ proc w = PStatus s /\ success s = true.
Proof.
  unfold ffmpeg_task. split.
  - intros [facts H].
    destruct (sidecar_ok w); [| discriminate]. simpl in H.
    destruct (nth 0 (jc_paths jc) None) as [p0|]; [| discriminate].
    destruct (nth 1 (jc_paths jc) None) as [p1|]; [| discriminate].
    destruct (proc w) as [|s|]; try discriminate.
    destruct (success s) eqn:Hs; [| discriminate].
    exists p0, p1, s. repeat split; assumption.
  - intros (p0 & p1 & s & Hsc & H0 & H1 & Hp & Hs).
    rewrite Hsc, H0, H1, Hp. simpl. rewrite Hs. eexists; reflexivity.
Qed.

Lemma try_join_ok a b f : try_join a b f = TOk <-> a = TOk /\ b = TOk.
Proof.
  destruct a, b; simpl; split; intros H; try discriminate;
    try (destruct H; discriminate); try (destruct f; discriminate); auto.
Qed.

Lemma outcome_res_ok o : outcome_res o = TOk <-> o = OOk.
Proof. destruct o; simpl; split; intros H; congruence. Qed.

Lemma monitor_ok_finished pf id task ppath frames mw :
  snd (monitor pf id task ppath frames mw) = OOk ->
  last (fst (monitor pf id task ppath frames mw))
  = Some (ASend (Finished id (gid_or_empty task)) true).
Proof.
  pose proof (TailFacts.monitor_shape pf id task ppath frames mw) as H.
  destruct (monitor pf id task ppath frames mw) as [acts out]. cbv zeta in *. simpl.
  destruct H as [[_ ->] | (pre & ok & rest & ps & fin & _ & _ & _ & _ & _ & _ & Hok)];
    [discriminate |].
  intros Ho. apply (Hok Ho).
Qed.

End MergeFacts.

(** C1. [merge] succeeds exactly when it reaches the join, the
    transcoder was spawned and exited with a success status, and the
    tailer ended successfully, its last action being the delivered
    Finished event. Once the join is reached, a failure of either task
    fails the merge with "Failed to merge" wrapped around the error of
    the task that failed first. *)
Theorem merge_success_iff pf info w :
  (snd (merge pf info w) = MOk <->
   exists jc p0 p1 s,
     merge_setup info w = inr jc /\ sidecar_ok w = true /\
     nth 0 (jc_paths jc) None = Some p0 /\ nth 1 (jc_paths jc) None = Some p1 /\
     proc w = PStatus s /\ success s = true /\
     snd (monitor_task pf info jc w) = OOk /\
     last (fst (monitor_task pf info jc w))
     = Some (ASend (Finished (qi_id info) (gid_or_empty (jc_video jc))) true)) /\
  (forall jc facts fres,
     merge_setup info w = inr jc -> ffmpeg_task info jc w = Some (facts, fres) ->
     let mout := snd (monitor_task pf info jc w) in
     (forall e1, fres = TErr e1 -> (forall e2, mout <> OErr e2) ->
        snd (merge pf info w) = MErr (Ctx "Failed to merge" e1)) /\
     (forall e2, mout = OErr e2 -> (forall e1, fres <> TErr e1) ->
        snd (merge pf info w) = MErr (Ctx "Failed to merge" e2)) /\
     (forall e1 e2, fres = TErr e1 -> mout = OErr e2 ->
        snd (merge pf info w)
        = MErr (Ctx "Failed to merge" (if ffmpeg_done_first w then e1 else e2)))).
Proof.
  split.
  - unfold merge. split.
    + destruct (merge_setup info w) as [[acts o]|jc] eqn:Hs.
      { intros Ho. exfalso. exact (MergeFacts.merge_setup_early _ _ _ _ Hs Ho). }
      destruct (ffmpeg_task info jc w) as [[facts fres]|] eqn:Hf; [| discriminate].
      destruct (monitor_task pf info jc w) as [macts mout] eqn:Hm. simpl.
      destruct (try_join fres (outcome_res mout) (ffmpeg_done_first w)) eqn:Hj;
        try discriminate.
      intros _. apply MergeFacts.try_join_ok in Hj as [-> Hmo].
      apply MergeFacts.outcome_res_ok in Hmo. subst mout.
      destruct (proj1 (MergeFacts.ffmpeg_task_ok info jc w) (ex_intro _ facts Hf))
        as (p0 & p1 & s & Hsc & H0 & H1 & Hp & Hsu).
      pose proof (MergeFacts.monitor_ok_finished pf (qi_id info) (jc_video jc)
                    (jc_progress_path jc) (jc_frames jc) (mon w)) as Hl.
      unfold monitor_task in Hm. rewrite Hm in Hl. simpl in Hl.
      exists jc, p0, p1, s. unfold monitor_task. rewrite Hm. simpl.
      split; [reflexivity |]. split; [exact Hsc |]. split; [exact H0 |].
      split; [exact H1 |]. split; [exact Hp |]. split; [exact Hsu |].
      split; [reflexivity |]. apply Hl. reflexivity.
    + intros (jc & p0 & p1 & s & Hs & Hsc & H0 & H1 & Hp & Hsu & Hmo & _).
      rewrite Hs.
      destruct (proj2 (MergeFacts.ffmpeg_task_ok info jc w)
                  (ex_intro _ p0 (ex_intro _ p1 (ex_intro _ s
                     (conj Hsc (conj H0 (conj H1 (conj Hp Hsu)))))))) as [facts Hf].
      rewrite Hf.
      destruct (monitor_task pf info jc w) as [macts mout]. simpl in Hmo |- *.
      rewrite Hmo. reflexivity.
  - intros jc facts fres Hs Hf mout. unfold merge. rewrite Hs, Hf.
    unfold mout. destruct (monitor_task pf info jc w) as [macts mo]. simpl.
    split; [| split].
    + intros e1 -> Hne. destruct mo; simpl; try reflexivity.
      exfalso. eapply Hne. reflexivity.
    + intros e2 -> Hne. destruct fres; simpl; try reflexivity.
      exfalso. eapply Hne. reflexivity.
    + intros e1 e2 -> ->. simpl. reflexivity.
Qed.

(** Witness of [merge_success_iff]: the merge of the demo queue succeeds. *)
Lemma merge_success_iff_witness :
  snd (merge demo_f64 demo_info demo_merge_world) = MOk.
Proof.
  apply (proj2 (proj1 (merge_success_iff demo_f64 demo_info demo_merge_world))).
  vm_compute.
  do 4 eexists. split; [reflexivity |]. split; [reflexivity |].
  split; [reflexivity |]. split; [reflexivity |]. split; [reflexivity |].
  split; [reflexivity |]. split; reflexivity.
Defined.

(** C7. With fewer than two tasks, [merge] returns its error at once:
    no action at all (no directory created, no probe, no process). *)
Theorem merge_too_few_tasks pf info w :
  length (tasks info) < 2 ->
  merge pf info w
  = ([], MErr (Msg ("Insufficient number of input paths, " ++ pretty (length (tasks info))))).
Proof.
  intros H. unfold merge, merge_setup.
  destruct (Nat.ltb_spec (length (tasks info)) 2) as [_|Hge]; [reflexivity | lia].
Qed.

(** Witness of [merge_too_few_tasks] on a queue with one task. *)
Lemma merge_too_few_tasks_witness :
  merge demo_f64 (mkQueueInfo "job" [demo_task] "/out/movie.mp4") demo_merge_world
  = ([], MErr (Msg ("Insufficient number of input paths, " ++ pretty 1))).
Proof. apply merge_too_few_tasks. simpl. lia. Defined.

(** C2, failing input. On a queue without an audio task, [merge] does not
    return an error value: the [unwrap()] on line 81 panics. *)
Lemma merge_missing_audio_panics pf w :
  merge pf no_audio_info w = ([], MPanic "called `Option::unwrap()` on a `None` value").
Proof. reflexivity. Qed.

(** C6. The audio mode depends only on the output extension and the
    probed codec: for [mp4] and [flv] it is ["copy"] exactly when the
    codec is ["aac"] or ["mp3"] and ["aac"] otherwise; for every other
    extension it is ["copy"]; in particular [mp4] with ["aac"] copies
    and [mp4] with ["opus"] re-encodes to ["aac"]. *)
Theorem audio_codec_mode ext probed :
  ((ext = "mp4" \/ ext = "flv") ->
     (audio_codec ext probed = "copy" <-> probed = "aac" \/ probed = "mp3") /\
     (probed <> "aac" -> probed <> "mp3" -> audio_codec ext probed = "aac")) /\
  (ext <> "mp4" -> ext <> "flv" -> audio_codec ext probed = "copy") /\
  audio_codec "mp4" "aac" = "copy" /\ audio_codec "mp4" "opus" = "aac".
Proof.
  unfold audio_codec.
  split; [| split; [| split; reflexivity]].
  - intros Hext.
    assert (Hs : (String.eqb ext "mp4" || String.eqb ext "flv") = true).
    { destruct Hext as [-> | ->]; reflexivity. }
    rewrite Hs.
    destruct (String.eqb_spec probed "aac") as [Ha|Ha];
      [| destruct (String.eqb_spec probed "mp3") as [Hm|Hm]]; simpl.
    + split; [split; [intros _; left; exact Ha | intros _; reflexivity] |].
      intros Hn. contradiction.
    + split; [split; [intros _; right; exact Hm | intros _; reflexivity] |].
      intros _ Hn. contradiction.
    + split; [split; [intros H; discriminate | intros [H|H]; contradiction] |].
      intros _ _. reflexivity.
  - intros H1 H2.
    destruct (String.eqb_spec ext "mp4"); [contradiction |].
    destruct (String.eqb_spec ext "flv"); [contradiction |]. reflexivity.
Qed.

(** Witness of [audio_codec_mode] on [mp4] and ["opus"]. *)
Lemma audio_codec_mode_witness : audio_codec "mp4" "opus" = "aac".
Proof.
  apply (proj2 (proj1 (audio_codec_mode "mp4" "opus") (or_introl eq_refl)));
    discriminate.
Defined.

(** The codec [merge] hands to the transcoder for the demo queue. *)
Lemma merge_demo_codec :
  In (GSpawn ["-i"; "video.m4s"; "-i"; "audio.m4s"; "-c:v"; "copy"; "-c:a"; "copy";
              "-shortest"; "/out/movie.mp4"; "-progress"; "/logs/ffmpeg/job_1700000000.log";
              "-y"])
     (fst (merge demo_f64 demo_info demo_merge_world)).
Proof. vm_compute. auto 10. Qed.

(* ------------------------------------------------------------------ *)
(** ** The stream probe *)

Module ProbeFacts.
Local Open Scope list_scope.

Lemma first_some_none {A B} (f : A -> option B) l :
  (forall x, In x l -> f x = None) -> first_some f l = None.
Proof.
  induction l as [|x l IH]; intros H; simpl; [reflexivity |].
  rewrite (H x (or_introl eq_refl)). apply IH. intros y Hy. apply H. right. exact Hy.
Qed.

Lemma first_some_cons {A B} (f : A -> option B) x l :
  first_some f (x :: l) = match f x with Some y => Some y | None => first_some f l end.
Proof. reflexivity. Qed.

Lemma rev_seq_S s n : rev (seq s (S n)) = (s + n) :: rev (seq s n).
Proof. rewrite seq_S. rewrite rev_app_distr. reflexivity. Qed.

Lemma firstn_take_while f l : firstn (length (take_while f l)) l = take_while f l.
Proof.
  induction l as [|c l IH]; simpl; [reflexivity |].
  destruct (f c); simpl; [rewrite IH |]; reflexivity.
Qed.

Lemma skipn_take_while f l k :
  k < length (take_while f l) -> exists c r, skipn k l = c :: r /\ f c = true.
Proof.
  revert k. induction l as [|c l IH]; intros k Hk; simpl in Hk; [lia |].
  destruct (f c) eqn:Hc; simpl in Hk; [| lia].
  destruct k as [|k]; simpl.
  - exists c, l. split; [reflexivity | exact Hc].
  - apply IH. lia.
Qed.

Lemma take_while_app_split (P Q : ascii -> bool) t :
  (forall c, Q c = true -> P c = true) ->
  take_while P t = take_while Q t ++ take_while P (skipn (length (take_while Q t)) t).
Proof.
  intros HQP. induction t as [|c t IH]; simpl; [reflexivity |].
  destruct (Q c) eqn:Hq; simpl.
  - rewrite (HQP c Hq). rewrite IH. reflexivity.
  - reflexivity.
Qed.

Lemma take_while_all f l x :
  forallb f l = true -> (match x with c :: _ => f c = false | [] => True end) ->
  take_while f (l ++ x) = l.
Proof.
  intros Hl Hx. induction l as [|c l IH]; simpl in *.
  - destruct x as [|c x]; [reflexivity | simpl; rewrite Hx; reflexivity].
  - apply andb_prop in Hl as [Hc Hl]. rewrite Hc, IH by exact Hl. reflexivity.
Qed.

Lemma match_here_cons p ps s :
  match_here (p :: ps) s =
  first_some (fun k =>
    match match_here ps (skipn k s) with
    | Some (caps, m) => Some (((if p_cap p then [firstn k s] else []) ++ caps)%list, k + m)
    | None => None
    end) (counts (p_quant p) (length (take_while (p_class p) s))).
Proof. reflexivity. Qed.

(** A [+] group at the start of [u]. *)
Lemma plus_here P u :
  match_here [mkPiece P QPlus true] u =
  match take_while P u with [] => None | g => Some ([g], length g) end.
Proof.
  unfold match_here. simpl p_quant. simpl p_class. simpl p_cap.
  destruct (take_while P u) as [|c g] eqn:E.
  - simpl. reflexivity.
  - simpl length. unfold counts. rewrite rev_seq_S. simpl first_some.
    assert (H : firstn (length (take_while P u)) u = c :: g)
      by (rewrite firstn_take_while; exact E).
    rewrite E in H. simpl length in H. rewrite H. f_equal. f_equal. lia.
Qed.

Lemma lit_here c ps s :
  match_here (lit c :: ps) s =
  match s with
  | d :: s' => if Ascii.eqb c d then
                 match match_here ps s' with
                 | Some (caps, m) => Some (caps, S m)
                 | None => None
                 end
               else None
  | [] => None
  end.
Proof.
  destruct s as [|d s']; [reflexivity |].
  unfold match_here at 1. fold match_here. simpl p_class. simpl p_quant. simpl p_cap.
  simpl take_while. destruct (Ascii.eqb c d); simpl; [| reflexivity].
  rewrite skipn_O. destruct (match_here ps s') as [[caps m]|]; reflexivity.
Qed.

Lemma lits_here w ps s :
  match_here (lits w ++ ps) s =
  match strip_prefix (list_ascii_of_string w) s with
  | Some t => match match_here ps t with
              | Some (caps, m) => Some (caps, String.length w + m)
              | None => None
              end
  | None => None
  end.
Proof.
  unfold lits. revert s. induction w as [|c w IH]; intros s.
  - simpl. destruct (match_here ps s) as [[caps m]|]; reflexivity.
  - simpl list_ascii_of_string. simpl map. rewrite <- app_comm_cons, lit_here.
    destruct s as [|d s]; [reflexivity |]. simpl strip_prefix.
    destruct (Ascii.eqb c d); [| reflexivity].
    rewrite IH. destruct (strip_prefix (list_ascii_of_string w) s) as [t|]; [| reflexivity].
    destruct (match_here ps t) as [[caps m]|]; reflexivity.
Qed.

Lemma ws_not_digit c : is_ws c = true -> is_digit c = false.
Proof.
  unfold is_ws, is_digit, digit_val. intros H.
  destruct (Nat.leb 48 (nat_of_ascii c) && Nat.leb (nat_of_ascii c) 57) eqn:E; [| reflexivity].
  apply andb_prop in E as [E1 E2]. apply Nat.leb_le in E1.
  apply orb_prop in H as [H|H].
  - apply andb_prop in H as [_ H]. apply Nat.leb_le in H. lia.
  - apply Nat.eqb_eq in H. lia.
Qed.

Lemma ws_not_comma c : is_ws c = true -> not_comma c = true.
Proof.
  intros H. unfold not_comma. destruct (Ascii.eqb_spec c ",") as [->|]; [discriminate | reflexivity].
Qed.

(** The tail of [frame_re]: whitespace, then the digit group. *)
Lemma frame_tail t :
  match_here [mkPiece is_ws QStar false; mkPiece is_digit QPlus true] t =
  let n := length (take_while is_ws t) in
  match take_while is_digit (skipn n t) with
  | [] => None
  | d => Some ([d], n + length d)
  end.
Proof.
  cbv zeta. rewrite match_here_cons. cbn [p_quant p_class p_cap].
  unfold counts. rewrite rev_seq_S, Nat.add_0_l, first_some_cons. cbv beta. rewrite plus_here.
  destruct (take_while is_digit (skipn (length (take_while is_ws t)) t)) as [|c d] eqn:E.
  - apply first_some_none. intros k Hk. apply in_rev in Hk. apply in_seq in Hk.
    destruct (skipn_take_while is_ws t k) as (c & r & Hs & Hc); [lia |].
    rewrite plus_here, Hs. simpl. rewrite (ws_not_digit c Hc). reflexivity.
  - reflexivity.
Qed.

Lemma trim_start_ws_app w x :
  forallb is_ws w = true ->
  trim_start (string_of_list_ascii (w ++ x)) = trim_start (string_of_list_ascii x).
Proof.
  induction w as [|c w IH]; simpl; intros H; [reflexivity |].
  apply andb_prop in H as [Hc H]. rewrite Hc. apply IH, H.
Qed.

Lemma trim_ws_app w x :
  forallb is_ws w = true ->
  trim (string_of_list_ascii (w ++ x)) = trim (string_of_list_ascii x).
Proof. intros H. unfold trim. rewrite trim_start_ws_app by exact H. reflexivity. Qed.

Lemma forallb_take_while f l : forallb f (take_while f l) = true.
Proof.
  induction l as [|c l IH]; simpl; [reflexivity |].
  destruct (f c) eqn:E; simpl; [rewrite E, IH |]; reflexivity.
Qed.

(** The tail of [audio_re]: whitespace, then the group of non-commas. *)
Lemma audio_tail t :
  match match_here [mkPiece is_ws QStar false; mkPiece not_comma QPlus true] t with
  | Some (caps, _) =>
      exists c r, t = c :: r /\ c <> ","%char /\
      exists g, caps = [g] /\
        trim (string_of_list_ascii g) = trim (string_of_list_ascii (take_while not_comma t))
  | None => t = [] \/ exists r, t = ","%char :: r
  end.
Proof.
  rewrite match_here_cons. cbn [p_quant p_class p_cap].
  unfold counts. rewrite rev_seq_S, Nat.add_0_l, first_some_cons. cbv beta. rewrite plus_here.
  pose proof (take_while_app_split not_comma is_ws t ws_not_comma) as Hsplit.
  set (n := length (take_while is_ws t)) in *.
  destruct (take_while not_comma (skipn n t)) as [|c d] eqn:E.
  - destruct n as [|n'] eqn:En.
    + simpl. simpl in E. destruct t as [|c r]; [left; reflexivity |].
      simpl in E. unfold not_comma in E.
      destruct (Ascii.eqb_spec c ","); [subst; right; exists r; reflexivity | discriminate].
    + rewrite rev_seq_S, Nat.add_0_l, first_some_cons. cbv beta. rewrite plus_here.
      destruct (skipn_take_while is_ws t n') as (w & r & Hs & Hw); [unfold n in En; lia |].
      assert (Hr : skipn (S n') t = r).
      { rewrite <- (skipn_skipn 1 n'). rewrite Hs. reflexivity. }
      rewrite Hs. simpl take_while. rewrite (ws_not_comma w Hw).
      rewrite Hr in E. rewrite E. simpl.
      destruct t as [|c0 t0]; [simpl in Hs; rewrite skipn_nil in Hs; discriminate |].
      exists c0, t0. split; [reflexivity |].
      assert (Hc0 : is_ws c0 = true).
      { unfold n in En. simpl in En. destruct (is_ws c0); [reflexivity | discriminate]. }
      split; [intros ->; discriminate |].
      exists [w]. split; [reflexivity |].
      rewrite Hsplit, app_nil_r.
      rewrite <- (app_nil_r [w]), trim_ws_app by (simpl; rewrite Hw; reflexivity).
      rewrite <- (app_nil_r (take_while is_ws _)), trim_ws_app by apply forallb_take_while.
      reflexivity.
  - destruct (skipn n t) as [|c' r'] eqn:Es; [discriminate |].
    simpl in E. destruct (not_comma c') eqn:Hc'; [| discriminate]. injection E as <- _.
    destruct t as [|c0 t0]; [rewrite skipn_nil in Es; discriminate |].
    exists c0, t0. split; [reflexivity |]. split.
    + intros ->. assert (Hn0 : n = 0) by reflexivity.
      rewrite Hn0, skipn_O in Es. injection Es as <- _. vm_compute in Hc'. discriminate.
    + eexists. split; [reflexivity |].
      rewrite Hsplit. rewrite trim_ws_app by apply forallb_take_while.
      reflexivity.
Qed.

End ProbeFacts.

Module ProbeFacts2.
Local Open Scope list_scope.
Import ProbeFacts.

Lemma strip_app w v X :
  length w <= length v ->
  strip_prefix w (v ++ X) = option_map (fun t => t ++ X) (strip_prefix w v).
Proof.
  revert v. induction w as [|c w IH]; intros v Hl; [reflexivity |].
  destruct v as [|d v]; simpl in Hl; [lia |]. simpl.
  destruct (Ascii.eqb c d); [apply IH; lia | reflexivity].
Qed.

Lemma strip_self w X : strip_prefix w (w ++ X) = Some X.
Proof. induction w as [|c w IH]; simpl; [reflexivity |]. rewrite Ascii.eqb_refl. exact IH. Qed.

Lemma strip_frame_shifted v Y :
  1 <= length v <= 5 -> strip_prefix frame_lit (v ++ frame_lit ++ Y) = None.
Proof.
  intros Hl.
  destruct v as [|a [|b [|c [|d [|e [|f v]]]]]]; simpl in Hl; try lia; simpl;
    repeat match goal with
           | |- context [if ?x then _ else _] => destruct x
           end; reflexivity.
Qed.

Lemma strip_frame_none v X :
  strip_prefix frame_lit v = None -> v <> [] -> starts_frame X ->
  strip_prefix frame_lit (v ++ X) = None.
Proof.
  intros Hv Hne HX.
  destruct (Nat.le_gt_cases 6 (length v)) as [Hl|Hl].
  - rewrite strip_app by exact Hl. rewrite Hv. reflexivity.
  - destruct HX as [-> | [Y ->]].
    + rewrite app_nil_r. exact Hv.
    + apply strip_frame_shifted. destruct v; [congruence | simpl in *; lia].
Qed.

Lemma frame_re_here s :
  match_here frame_re s =
  match strip_prefix frame_lit s with
  | Some t => match match_here [mkPiece is_ws QStar false; mkPiece is_digit QPlus true] t with
              | Some (caps, m) => Some (caps, 6 + m)
              | None => None
              end
  | None => None
  end.
Proof. unfold frame_re. rewrite lits_here. reflexivity. Qed.

Lemma caps_from_cons0 ps c r :
  caps_from ps 0 (c :: r) =
  match match_here ps (c :: r) with
  | Some (caps, m) => caps :: caps_from ps (m - 1) r
  | None => caps_from ps 0 r
  end.
Proof. reflexivity. Qed.

Lemma contains_cons w c s :
  contains w (c :: s) =
  match strip_prefix w (c :: s) with Some _ => true | None => contains w s end.
Proof. reflexivity. Qed.

Lemma caps_skip_head h X :
  contains frame_lit h = false -> starts_frame X ->
  caps_from frame_re 0 (h ++ X) = caps_from frame_re 0 X.
Proof.
  intros Hh HX. induction h as [|c h IH]; [reflexivity |].
  rewrite contains_cons in Hh.
  destruct (strip_prefix frame_lit (c :: h)) eqn:Hs; [discriminate |].
  rewrite <- app_comm_cons, caps_from_cons0, frame_re_here.
  change (c :: h ++ X) with ((c :: h) ++ X).
  rewrite (strip_frame_none (c :: h) X Hs ltac:(discriminate) HX).
  apply IH, Hh.
Qed.

Lemma caps_skip ps u v : caps_from ps (length u) (u ++ v) = caps_from ps 0 v.
Proof. induction u as [|c u IH]; [reflexivity | exact IH]. Qed.

Lemma digit_not_ws c : is_digit c = true -> is_ws c = false.
Proof. intros H. destruct (is_ws c) eqn:E; [rewrite (ws_not_digit c E) in H; discriminate | reflexivity]. Qed.

Lemma seg_match pad d tail X :
  seg_ok (pad, d, tail) = true -> starts_frame X ->
  match_here frame_re (seg_text (pad, d, tail) ++ X) = Some ([d], 6 + (length pad + length d)).
Proof.
  unfold seg_ok, seg_text. intros H HX.
  apply andb_prop in H as [H Htail]. apply andb_prop in H as [H Hcont].
  apply andb_prop in H as [H Hd]. apply andb_prop in H as [Hpad Hne].
  destruct d as [|c0 d']; [discriminate |].
  rewrite frame_re_here. rewrite <- app_assoc, strip_self.
  rewrite frame_tail. cbv zeta.
  rewrite <- !app_assoc.
  rewrite (take_while_all is_ws pad) by (exact Hpad || (simpl in Hd; apply andb_prop in Hd as [Hc0 _]; exact (digit_not_ws c0 Hc0))).
  rewrite skipn_app, skipn_all, Nat.sub_diag, skipn_O. simpl app at 1.
  change (c0 :: d' ++ tail ++ X) with ((c0 :: d') ++ (tail ++ X)).
  rewrite (take_while_all is_digit (c0 :: d')).
  - reflexivity.
  - exact Hd.
  - destruct tail as [|t0 tail'].
    + destruct HX as [-> | [Y ->]]; [exact I | reflexivity].
    + simpl. simpl in Htail. destruct (is_digit t0); [discriminate | reflexivity].
Qed.

Lemma starts_frame_concat segs : starts_frame (concat (map seg_text segs)).
Proof.
  destruct segs as [|[[pad d] tail] segs]; [left; reflexivity |].
  right. simpl. eexists. rewrite <- app_assoc. reflexivity.
Qed.

Lemma caps_segs segs :
  forallb seg_ok segs = true ->
  caps_from frame_re 0 (concat (map seg_text segs)) =
  map (fun sg : list ascii * list ascii * list ascii => let '(_, d, _) := sg in [d]) segs.
Proof.
  induction segs as [|[[pad d] tail] segs IH]; intros H; [reflexivity |].
  simpl in H. apply andb_prop in H as [Hsg H].
  rewrite map_cons, concat_cons. simpl map.
  pose proof (seg_match pad d tail _ Hsg (starts_frame_concat segs)) as Hm.
  set (X := concat (map seg_text segs)) in *.
  assert (Hsplit : seg_text (pad, d, tail) ++ X =
                   "f"%char :: ((list_ascii_of_string "rame=" ++ pad ++ d) ++ (tail ++ X)))
    by (unfold seg_text, frame_lit; simpl; rewrite <- !app_assoc; reflexivity).
  rewrite Hsplit, caps_from_cons0, <- Hsplit, Hm. f_equal.
  replace (6 + (length pad + length d) - 1)
    with (length (list_ascii_of_string "rame=" ++ pad ++ d)) by (rewrite !length_app; simpl; lia).
  rewrite caps_skip.
  unfold seg_ok in Hsg. apply andb_prop in Hsg as [Hsg _]. apply andb_prop in Hsg as [_ Hc].
  rewrite caps_skip_head.
  - apply IH, H.
  - destruct (contains frame_lit tail); [discriminate | reflexivity].
  - apply starts_frame_concat.
Qed.

Lemma trim_start_nows l :
  match l with c :: _ => is_ws c = false | [] => True end ->
  trim_start (string_of_list_ascii l) = string_of_list_ascii l.
Proof. destruct l as [|c l]; simpl; intros H; [reflexivity | rewrite H; reflexivity]. Qed.

Lemma trim_digits d :
  forallb is_digit d = true -> trim (string_of_list_ascii d) = string_of_list_ascii d.
Proof.
  intros H. unfold trim, rev_str.
  rewrite (trim_start_nows d).
  2: { destruct d as [|c d]; [exact I | simpl in H; apply andb_prop in H as [Hc _]; exact (digit_not_ws c Hc)]. }
  rewrite list_ascii_of_string_of_list_ascii.
  rewrite (trim_start_nows (rev d)).
  2: { destruct (rev d) as [|c r] eqn:E; [exact I |].
       assert (Hin : In c (rev d)) by (rewrite E; left; reflexivity).
       apply in_rev in Hin. rewrite forallb_forall in H. exact (digit_not_ws c (H c Hin)). }
  rewrite list_ascii_of_string_of_list_ascii, rev_involutive. reflexivity.
Qed.

End ProbeFacts2.

(** X1 ([get_stream_info], lines 52-55). When the probe's stderr is ASCII
    text made of a head without any [frame=] followed by segments [frame=], blanks, a
    digit run and a tail with no further [frame=], the frame count is the
    largest digit run that fits in a [u64]; runs that overflow are skipped,
    and when none fits the probe fails with its frame-count error,
    whatever the exit status of the probe. *)
Theorem stream_info_frames st head segs :
  forallb is_ascii7 (head ++ concat (map seg_text segs)) = true ->
  contains frame_lit head = false -> forallb seg_ok segs = true ->
  let s := string_of_list_ascii (head ++ concat (map seg_text segs)) in
  get_stream_info (ProbeOut st s) =
  match max_opt (flat_map seg_value segs) with
  | None => inr (Msg "Failed to parse video frame count")
  | Some f =>
      match stream_codecs s with
      | c :: _ => inl (f, c)
      | [] => inr (Msg "Failed to parse audio codec")
      end
  end.
Proof.
  intros _ Hh Hs s. unfold get_stream_info.
  assert (E : stream_frames s = flat_map seg_value segs).
  { unfold stream_frames, s. rewrite list_ascii_of_string_of_list_ascii.
    rewrite ProbeFacts2.caps_skip_head by (exact Hh || apply ProbeFacts2.starts_frame_concat).
    rewrite ProbeFacts2.caps_segs by exact Hs.
    clear Hh s. induction segs as [|[[pad d] tail] segs IH]; [reflexivity |].
    simpl in Hs. apply andb_prop in Hs as [Hsg Hs].
    simpl. rewrite IH by exact Hs. f_equal.
    unfold seg_ok in Hsg. repeat (apply andb_prop in Hsg as [Hsg ?]).
    rewrite ProbeFacts2.trim_digits by assumption. reflexivity. }
  rewrite E. reflexivity.
Qed.

(** X2 ([get_stream_info], lines 57-60). On ASCII stderr, the codec the
    probe reports is the trimmed text that follows the first [Audio:] (and its blanks) which is
    not directly followed by a comma, up to the next comma; it is not cut
    at the first blank, so [aac (LC)] stays whole. *)
Theorem stream_codec_first (s : string) :
  forallb is_ascii7 (list_ascii_of_string s) = true ->
  hd_error (stream_codecs s) =
  option_map (fun t => trim (string_of_list_ascii t)) (audio_text (list_ascii_of_string s)).
Proof.
  intros _. unfold stream_codecs. generalize (list_ascii_of_string s) as l. clear s.
  induction l as [|c r IH]; [reflexivity |].
  rewrite ProbeFacts2.caps_from_cons0. unfold audio_re at 1. rewrite ProbeFacts.lits_here.
  change (audio_text (c :: r)) with
    (match strip_prefix (list_ascii_of_string "Audio:") (c :: r) with
     | Some (c' :: t) =>
         if Ascii.eqb c' "," then audio_text r else Some (take_while not_comma (c' :: t))
     | _ => audio_text r
     end).
  destruct (strip_prefix (list_ascii_of_string "Audio:") (c :: r)) as [t|] eqn:Es; [| exact IH].
  pose proof (ProbeFacts.audio_tail t) as Ht.
  destruct (match_here [mkPiece is_ws QStar false; mkPiece not_comma QPlus true] t)
    as [[caps m]|].
  - destruct Ht as (c1 & r1 & -> & Hc1 & g & -> & Hg). simpl.
    destruct (Ascii.eqb_spec c1 ","); [contradiction |]. simpl. rewrite Hg. reflexivity.
  - destruct Ht as [-> | [r1 ->]]; [exact IH |]. simpl. exact IH.
Qed.

Lemma stream_codec_first_witness :
  forallb is_ascii7 (list_ascii_of_string codec_stderr) = true /\
  hd_error (stream_codecs codec_stderr) = Some "aac (LC)".
Proof.
  split; [vm_compute; reflexivity |].
  rewrite (stream_codec_first codec_stderr) by (vm_compute; reflexivity).
  vm_compute. reflexivity.
Defined.

Lemma stream_info_frames_witness :
  forallb is_ascii7 (demo_head ++ concat (map seg_text demo_segs)) = true /\
  contains frame_lit demo_head = false /\ forallb seg_ok demo_segs = true /\
  get_stream_info (ProbeOut (Exited 1)
    (string_of_list_ascii (demo_head ++ concat (map seg_text demo_segs))))
  = inl (240%N, "aac (LC)").
Proof.
  split; [vm_compute; reflexivity |].
  split; [vm_compute; reflexivity |]. split; [vm_compute; reflexivity |].
  rewrite (stream_info_frames (Exited 1) demo_head demo_segs); [| vm_compute; reflexivity ..].
  vm_compute. reflexivity.
Defined.

(* ------------------------------------------------------------------ *)
(** ** The audio extraction *)

(** X3 ([raw_flac]). The extraction succeeds exactly when the queue has an
    audio task, the first audio task of the queue has a path, the sidecar
    is found and ffmpeg exits successfully; with such a task and the
    sidecar found, it spawns ffmpeg once with
    [-i path -vn -acodec flac output], and an unsuccessful exit gives the
    error naming the exit code. *)
Theorem raw_flac_outcome info sc run :
  (snd (raw_flac info sc run) = MOk <->
   exists t p s, find (is_type Audio) (tasks info) = Some t /\ path t = Some p /\
     sc = true /\ run = PStatus s /\ success s = true) /\
  (forall t p, find (is_type Audio) (tasks info) = Some t -> path t = Some p -> sc = true ->
     fst (raw_flac info sc run) = [GSpawn ["-i"; p; "-vn"; "-acodec"; "flac"; output info]] /\
     (forall s, run = PStatus s -> success s = false ->
        snd (raw_flac info sc run)
        = MErr (Msg ("FFmpeg exited with status: " ++ pretty (exit_code s))))).
Proof.
  unfold raw_flac. split.
  - destruct (find (is_type Audio) (tasks info)) as [t|]; [| split; [discriminate | intros (? & ? & ? & H & _); discriminate]].
    destruct sc; simpl; [| split; [discriminate | intros (? & ? & ? & _ & _ & H & _); discriminate]].
    destruct (path t) as [p|] eqn:Hpt; [| split; [discriminate | intros (? & ? & ? & [= <-] & H & _); congruence]].
    split.
    + destruct run as [|s|]; simpl; try discriminate.
      destruct (success s) eqn:Hs; [| discriminate].
      intros _. exists t, p, s. repeat split; assumption.
    + intros (t' & p' & s & [= <-] & Hp' & _ & -> & Hs). simpl. rewrite Hs. reflexivity.
  - intros t p Ht Hp Hsc. rewrite Ht, Hsc, Hp. simpl. split; [reflexivity |].
    intros s -> Hs. rewrite Hs. reflexivity.
Qed.

Lemma raw_flac_outcome_witness :
  raw_flac (mkQueueInfo "job" [mkTask None Audio (Some "a.m4s")] "/out/a.flac") true
           (PStatus (Exited 1))
  = ([GSpawn ["-i"; "a.m4s"; "-vn"; "-acodec"; "flac"; "/out/a.flac"]],
     MErr (Msg ("FFmpeg exited with status: " ++ pretty 1%Z))).
Proof.
  destruct (proj2 (raw_flac_outcome (mkQueueInfo "job" [mkTask None Audio (Some "a.m4s")] "/out/a.flac")
                     true (PStatus (Exited 1))) (mkTask None Audio (Some "a.m4s")) "a.m4s"
              eq_refl eq_refl eq_refl) as [H1 H2].
  rewrite (surjective_pairing (raw_flac _ _ _)), H1, (H2 (Exited 1) eq_refl eq_refl).
  reflexivity.
Defined.

(** X4 ([raw_flac], lines 138-146). The extraction panics exactly when the
    queue has no audio task, or when its first audio task has no path and
    the sidecar is found: a missing sidecar is reported as an error
    before the missing path is noticed. *)
Theorem raw_flac_panics info sc run :
  (exists m, snd (raw_flac info sc run) = MPanic m) <->
  find (is_type Audio) (tasks info) = None \/
  (exists t, find (is_type Audio) (tasks info) = Some t /\ path t = None /\ sc = true).
Proof.
  unfold raw_flac.
  destruct (find (is_type Audio) (tasks info)) as [t|].
  - destruct sc; simpl.
    + destruct (path t) as [p|] eqn:Hpt.
      * split; [| intros [H | (t' & [= <-] & H & _)]; congruence].
        intros [m Hm]. destruct run as [|s|]; simpl in Hm; try discriminate.
        destruct (success s); discriminate.
      * split; [intros _; right; exists t; auto | intros _; eexists; reflexivity].
    + split; [intros [m Hm]; discriminate |].
      intros [H | (t' & _ & _ & H)]; discriminate.
  - split; [intros _; left; reflexivity | intros _; eexists; reflexivity].
Qed.

(* ------------------------------------------------------------------ *)
(** ** Spawn arguments, setup failures and event identity of the merge *)

Module MergeFacts2.
Local Open Scope list_scope.

Lemma merge_setup_inl info w acts o :
  merge_setup info w = inl (acts, o) ->
  Forall setup_act acts /\ ((exists m, o = MPanic m) \/ (exists e, o = MErr e)).
Proof.
  unfold merge_setup.
  repeat match goal with
         | |- context [match ?x with _ => _ end] => destruct x eqn:?
         end; cbv beta iota zeta; intros [= <- <-];
    (split; [repeat first [ apply List.Forall_nil
                          | apply List.Forall_cons;
                            [unfold setup_act;
                             first [left; eexists; reflexivity
                                   | right; do 2 eexists; reflexivity] |] ] |
             first [left; eexists; reflexivity | right; eexists; reflexivity]]).
Qed.

Lemma merge_setup_inr info w jc :
  merge_setup info w = inr jc ->
  exists dir vt va pv pa frames codec,
    log_dir w = Some dir /\ mkdir_ok w = true /\ probe w = Some (frames, codec) /\
    2 <= length (tasks info) /\
    find (is_type Video) (tasks info) = Some vt /\ path vt = Some pv /\
    find (is_type Audio) (tasks info) = Some va /\ path va = Some pa /\
    jc = mkJoinCtx [GMkdir (dir ++ "/ffmpeg"); GProbe pv pa] (map path (tasks info)) vt
           ((dir ++ "/ffmpeg") ++ "/" ++ qi_id info ++ "_" ++ ts w ++ ".log") frames
           (audio_codec (ext_or_empty (output info)) codec).
Proof.
  unfold merge_setup.
  destruct (Nat.ltb_spec (length (tasks info)) 2) as [|Hl]; [discriminate |].
  destruct (find (is_type Video) (tasks info)) as [vt|] eqn:Hv; [| discriminate].
  destruct (path vt) as [pv|] eqn:Hpv; [| discriminate].
  destruct (find (is_type Audio) (tasks info)) as [va|] eqn:Ha; [| discriminate].
  destruct (path va) as [pa|] eqn:Hpa; [| discriminate].
  destruct (log_dir w) as [dir|] eqn:Hd; [| discriminate].
  destruct (mkdir_ok w) eqn:Hm; [| discriminate]. simpl.
  destruct (probe w) as [[frames codec]|] eqn:Hp; [| discriminate].
  intros [= <-]. exists dir, vt, va, pv, pa, frames, codec. repeat split; assumption.
Qed.


End MergeFacts2.



(** X6 ([merge], lines 83-105). When the log directory cannot be created
    or the probe fails, the merge performs only directory creations and
    probes (it spawns nothing and sends no event) and ends in an error or
    a panic. *)
Theorem merge_setup_failure_quiet pf info w :
  mkdir_ok w = false \/ probe w = None ->
  Forall setup_act (fst (merge pf info w)) /\
  ((exists e, snd (merge pf info w) = MErr e) \/ (exists m, snd (merge pf info w) = MPanic m)).
Proof.
  intros Hf. unfold merge. destruct (merge_setup info w) as [[acts o]|jc] eqn:Hs.
  - destruct (MergeFacts2.merge_setup_inl info w acts o Hs) as (Hacts & Ho).
    split; [exact Hacts |]. simpl. tauto.
  - destruct (MergeFacts2.merge_setup_inr info w jc Hs) as (d0 & v0 & a0 & q0 & q1 & fr & co & Hd & Hm & Hp & _).
    destruct Hf as [Hf | Hf]; congruence.
Qed.

Lemma merge_setup_failure_quiet_witness :
  fst (merge demo_f64 demo_info
         (mkMergeWorld (Some "/logs") "1700000000" true None true
                       (PStatus (Exited 0)) (demo_world (fun _ => true)) true))
  = [GMkdir "/logs/ffmpeg"; GProbe "video.m4s" "audio.m4s"] /\
  Forall setup_act
    (fst (merge demo_f64 demo_info
            (mkMergeWorld (Some "/logs") "1700000000" true None true
                          (PStatus (Exited 0)) (demo_world (fun _ => true)) true))).
Proof.
  split; [reflexivity |].
  apply (merge_setup_failure_quiet demo_f64 demo_info
           (mkMergeWorld (Some "/logs") "1700000000" true None true
                         (PStatus (Exited 0)) (demo_world (fun _ => true)) true)).
  right. reflexivity.
Defined.

Lemma In_send_sends e b l : In (ASend e b) l -> In e (sends l).
Proof.
  induction l as [|a l IH]; simpl; [intros [] |].
  intros [-> | H]; [left; reflexivity |]. apply in_or_app. right. apply IH, H.
Qed.

Lemma ffmpeg_task_facts info jc w facts r :
  ffmpeg_task info jc w = Some (facts, r) -> forall a, In a facts -> exists args, a = GSpawn args.
Proof.
  unfold ffmpeg_task. destruct (sidecar_ok w); simpl.
  - destruct (nth 0 (jc_paths jc) None), (nth 1 (jc_paths jc) None); try discriminate.
    intros [= <- _] a [<- | []]. eexists; reflexivity.
  - intros [= <- _] a [].
Qed.

(** X7 ([merge] and [monitor]). Every event the merge sends carries the
    queue's id and the gid of the queue's first video task, and every
    progress event carries as its total the frame count of the probe. *)
Theorem merge_event_identity pf info w e ok :
  In (GMon (ASend e ok)) (fst (merge pf info w)) ->
  exists vt frames codec,
    find (is_type Video) (tasks info) = Some vt /\ probe w = Some (frames, codec) /\
    event_id e = qi_id info /\ event_gid e = gid_or_empty vt /\
    match e with Progress _ _ total _ => total = frames | _ => True end.
Proof.
  unfold merge. destruct (merge_setup info w) as [[acts o]|jc] eqn:Hs.
  - simpl. intros Hin. destruct (MergeFacts2.merge_setup_inl info w acts o Hs) as [Hf _].
    rewrite List.Forall_forall in Hf. destruct (Hf _ Hin) as [[d Hd] | (v & au & Hd)]; discriminate.
  - destruct (MergeFacts2.merge_setup_inr info w jc Hs)
      as (dir & vt & va & pv & pa & frames & codec & Hd & Hm & Hp & Hl & Hv & Hpv & Ha & Hpa & ->).
    destruct (ffmpeg_task info _ w) as [[facts fres]|] eqn:Hft.
    2: { simpl. intros [H | [H | []]]; discriminate. }
    pose proof (ffmpeg_task_facts _ _ _ _ _ Hft) as Hfacts.
    unfold monitor_task. simpl jc_video. simpl jc_frames. simpl jc_progress_path.
    pose proof (TailFacts.monitor_shape pf (qi_id info) vt
                  ((dir ++ "/ffmpeg") ++ "/" ++ qi_id info ++ "_" ++ ts w ++ ".log")
                  frames (mon w)) as Hsh.
    destruct (monitor pf _ _ _ _ _) as [macts mout]. simpl.
    intros Hin.
    assert (Hm' : In (ASend e ok) macts).
    { destruct Hin as [H | [H | Hin]]; try discriminate.
      apply in_app_or in Hin as [Hin | Hin].
      - destruct (Hfacts _ Hin) as [args Ha']. discriminate.
      - apply in_map_iff in Hin as (m & [= ->] & Hin). exact Hin. }
    exists vt, frames, codec. split; [exact Hv |]. split; [exact Hp |].
    apply In_send_sends in Hm'. cbv zeta in Hsh.
    destruct Hsh as [[-> _] | (pre & ok0 & rest & ps & fin & Hacts & Hpre & _ & Hsr & Hps & Hfin & _)];
      [destruct Hm' |].
    rewrite Hacts, TailFacts.sends_app, sends_waits in Hm' by exact Hpre.
    simpl in Hm'. rewrite Hsr in Hm'.
    destruct Hm' as [<- | Hm']; [simpl; auto |].
    apply in_app_or in Hm' as [Hm' | Hm'].
    + rewrite List.Forall_forall in Hps. destruct (Hps e Hm') as [f ->]. simpl. auto.
    + destruct Hfin as [-> | ->]; [destruct Hm' |]. destruct Hm' as [<- | []]. simpl. auto.
Qed.

Lemma merge_event_identity_witness :
  In (GMon (ASend (Progress "job" "" 240 120) true)) (fst (merge demo_f64 demo_info demo_merge_world)) /\
  exists vt frames codec,
    find (is_type Video) (tasks demo_info) = Some vt /\ probe demo_merge_world = Some (frames, codec) /\
    event_id (Progress "job" "" 240 120) = qi_id demo_info /\
    event_gid (Progress "job" "" 240 120) = gid_or_empty vt /\
    match Progress "job" "" 240 120 with Progress _ _ total _ => total = frames | _ => True end.
Proof.
  assert (H : In (GMon (ASend (Progress "job" "" 240 120) true))
                 (fst (merge demo_f64 demo_info demo_merge_world))) by (vm_compute; auto 30).
  split; [exact H | exact (merge_event_identity _ _ _ _ _ H)].
Defined.

(* ------------------------------------------------------------------ *)
(** ** Decoding the field window *)

Module DecodeFacts.

Lemma decode_some m l :
  decode_log m = Some l ->
  de_u64 (m !! "frame") = Some (frame l) /\ de_f64 (m !! "fps") = Some (fps l) /\
  de_f64 (m !! "stream_0_0_q") = Some (stream_0_0_q l) /\
  de_string (m !! "bitrate") = Some (bitrate l) /\
  de_u64 (m !! "total_size") = Some (total_size l) /\
  de_u64 (m !! "out_time_us") = Some (out_time_us l) /\
  de_u64 (m !! "out_time_ms") = Some (out_time_ms l) /\
  de_string (m !! "out_time") = Some (out_time l) /\
  de_u32 (m !! "dup_frames") = Some (dup_frames l) /\
  de_u32 (m !! "drop_frames") = Some (drop_frames l) /\
  de_string (m !! "speed") = Some (speed l) /\
  de_string (m !! "progress") = Some (progress l).
Proof.
  unfold decode_log.
  destruct (de_u64 (m !! "frame")); [| discriminate]. simpl.
  destruct (de_f64 (m !! "fps")); [| discriminate]. simpl.
  destruct (de_f64 (m !! "stream_0_0_q")); [| discriminate]. simpl.
  destruct (de_string (m !! "bitrate")); [| discriminate]. simpl.
  destruct (de_u64 (m !! "total_size")); [| discriminate]. simpl.
  destruct (de_u64 (m !! "out_time_us")); [| discriminate]. simpl.
  destruct (de_u64 (m !! "out_time_ms")); [| discriminate]. simpl.
  destruct (de_string (m !! "out_time")); [| discriminate]. simpl.
  destruct (de_u32 (m !! "dup_frames")); [| discriminate]. simpl.
  destruct (de_u32 (m !! "drop_frames")); [| discriminate]. simpl.
  destruct (de_string (m !! "speed")); [| discriminate]. simpl.
  destruct (de_string (m !! "progress")); [| discriminate]. simpl.
  intros [= <-]. repeat split.
Qed.

End DecodeFacts.

(** X8 ([FFmpegLog], lines 19-33, decoded at line 205). When the window
    holds for a field the value the tailer makes of text [v]: a [u64]
    field whose text is not a [u64] number (such as [out_time_us=N/A])
    makes decoding fail, a [u32] field above [2^32-1] makes it fail, and a
    float field whose text is neither a [u64] number nor a finite float
    makes it fail. *)
Theorem decode_numeric_fields pf m k v :
  m !! k = Some (coerce_value pf v) ->
  (In k u64_fields -> parse_u64 v = None -> decode_log m = None) /\
  (In k u32_fields -> forall n, parse_u64 v = Some n -> (2 ^ 32 - 1 < n)%N -> decode_log m = None) /\
  (In k f64_fields -> parse_u64 v = None -> pf v <> Some true -> decode_log m = None).
Proof.
  intros Hk. split; [| split].
  - intros Hin Hp. destruct (decode_log m) as [l|] eqn:E; [exfalso | reflexivity].
    apply DecodeFacts.decode_some in E.
    assert (Hbad : de_u64 (m !! k) = None /\ de_u32 (m !! k) = None).
    { rewrite Hk. unfold coerce_value. rewrite Hp.
      destruct (pf v) as [[|]|]; split; reflexivity. }
    destruct Hbad as [Hb1 Hb2].
    simpl in Hin. repeat destruct Hin as [<- | Hin]; try destruct Hin; intuition congruence.
  - intros Hin n Hp Hn. destruct (decode_log m) as [l|] eqn:E; [exfalso | reflexivity].
    apply DecodeFacts.decode_some in E.
    assert (Hbad : de_u32 (m !! k) = None).
    { rewrite Hk. unfold coerce_value. rewrite Hp. simpl.
      destruct (N.leb_spec n (2 ^ 32 - 1)); [lia | reflexivity]. }
    simpl in Hin. repeat destruct Hin as [<- | Hin]; try destruct Hin; intuition congruence.
  - intros Hin Hp Hf. destruct (decode_log m) as [l|] eqn:E; [exfalso | reflexivity].
    apply DecodeFacts.decode_some in E.
    assert (Hbad : de_f64 (m !! k) = None).
    { rewrite Hk. unfold coerce_value. rewrite Hp.
      destruct (pf v) as [[|]|]; [congruence | reflexivity | reflexivity]. }
    simpl in Hin. repeat destruct Hin as [<- | Hin]; try destruct Hin; intuition congruence.
Qed.

(** X9 ([FFmpegLog]). When the window holds for a string field the value
    the tailer makes of a text that reads as a [u64] or as a float (such
    as [speed=1]), decoding fails: the text is stored as a JSON number, or
    as null for a float that is not finite. *)
Theorem decode_string_fields pf m k v :
  m !! k = Some (coerce_value pf v) -> In k str_fields ->
  (parse_u64 v <> None \/ pf v <> None) -> decode_log m = None.
Proof.
  intros Hk Hin Hp. destruct (decode_log m) as [l|] eqn:E; [exfalso | reflexivity].
  apply DecodeFacts.decode_some in E.
  assert (Hbad : de_string (m !! k) = None).
  { rewrite Hk. unfold coerce_value.
    destruct (parse_u64 v); [reflexivity |].
    destruct Hp as [Hp | Hp]; [congruence |].
    destruct (pf v) as [[|]|]; [reflexivity | reflexivity | congruence]. }
  simpl in Hin. repeat destruct Hin as [<- | Hin]; try destruct Hin; intuition congruence.
Qed.

Lemma decode_numeric_fields_witness :
  decode_log demo_fields_map = Some demo_log1 /\
  decode_log (<["out_time_us" := coerce_value demo_f64 "N/A"]> demo_fields_map) = None /\
  decode_log (<["dup_frames" := coerce_value demo_f64 "4294967296"]> demo_fields_map) = None /\
  decode_log (<["fps" := coerce_value demo_f64 "N/A"]> demo_fields_map) = None.
Proof.
  split; [vm_compute; reflexivity |]. split; [| split].
  - apply (proj1 (decode_numeric_fields demo_f64 _ "out_time_us" "N/A" (lookup_insert_eq _ _ _)));
      [vm_compute; tauto | reflexivity].
  - apply (proj1 (proj2 (decode_numeric_fields demo_f64 _ "dup_frames" "4294967296"
                           (lookup_insert_eq _ _ _))) ) with (n := 4294967296%N);
      [vm_compute; tauto | reflexivity | lia].
  - apply (proj2 (proj2 (decode_numeric_fields demo_f64 _ "fps" "N/A" (lookup_insert_eq _ _ _))));
      [vm_compute; tauto | reflexivity | discriminate].
Defined.

Lemma decode_string_fields_witness :
  decode_log demo_fields_map = Some demo_log1 /\
  decode_log (<["speed" := coerce_value demo_f64 "1"]> demo_fields_map) = None.
Proof.
  split; [vm_compute; reflexivity |].
  apply (decode_string_fields demo_f64 _ "speed" "1" (lookup_insert_eq _ _ _)).
  - vm_compute. tauto.
  - left. discriminate.
Defined.

(* ------------------------------------------------------------------ *)
(** ** What the tail loop reads *)

Module ReadFacts.












End ReadFacts.


